(** * LG4X-V2 [usrmodel.py]: convolution engine, composite lineshapes,
      parameter hints and initial guesses.

    Shallow embedding of [src/Python/usrmodel.py] over the real numbers of
    the Standard Library.  Functions that raise in Python return [option];
    NumPy arrays are lists of reals.  The primitives imported from
    [lmfit.lineshapes] ([doniach], [gaussian], [thermal_distribution]) are
    written out from lmfit's source, and so are the parts of
    [lmfit.Model] and [lmfit.Parameter] the models use ([set_param_hint],
    [make_params], the bounds of a parameter's value) and the heuristic
    [guess_from_peak].  Parameter expressions are not evaluated. *)

From Stdlib Require Import String Reals Lra Lia List ZArith.
Import ListNotations.
Open Scope R_scope.

(* ------------------------------------------------------------------------- *)
(** ** Python / NumPy helpers *)

Definition obind {A B} (o : option A) (f : A -> option B) : option B :=
  match o with Some a => f a | None => None end.

Notation "'let*' x ':=' o 'in' k" := (obind o (fun x => k))
  (at level 200, x name, o at level 100, k at level 200).

(** [sum(f(j) for j in range(n))] *)
Fixpoint big_sum (n : nat) (f : nat -> R) : R :=
  match n with
  | O => 0
  | S k => big_sum k f + f k
  end.

(** [len(l)] as a Python integer. *)
Definition py_len {A} (l : list A) : Z := Z.of_nat (length l).

(** [l[n:]] with Python's handling of negative starts. *)
Definition py_drop {A} (n : Z) (l : list A) : list A :=
  skipn (Z.to_nat (if (n <? 0)%Z then Z.max 0 (py_len l + n) else n)) l.

(** [l[:n]] for [n >= 0]. *)
Definition py_take {A} (n : nat) (l : list A) : list A := firstn n l.

(** [l[i:j]]: both bounds normalised as Python does. *)
Definition py_slice {A} (i j : Z) (l : list A) : list A :=
  let norm k := if (k <? 0)%Z then Z.max 0 (py_len l + k)
                else Z.min k (py_len l) in
  let s := norm i in
  let e := norm j in
  firstn (Z.to_nat (e - s)) (skipn (Z.to_nat s) l).

(** [int(k / 2)] for a Python integer [k]: true division, then truncation
    toward zero. *)
Definition py_int_half (k : Z) : Z := Z.quot k 2.

(** [np.correlate(a, v, mode='valid')] for real arrays with [len(a) >= len(v)]. *)
Definition np_correlate_valid (a v : list R) : list R :=
  map (fun k => big_sum (length v) (fun j => nth (k + j) a 0 * nth j v 0))
      (seq 0 (length a - length v + 1)).

(** [np.convolve(a, v, mode='valid')]: raises on an empty operand, swaps
    the operands when [v] is the longer one, then correlates with [v[::-1]]. *)
Definition np_convolve_valid (a v : list R) : option (list R) :=
  match a, v with
  | [], _ => None
  | _, [] => None
  | _, _ =>
      let '(a', v') := if Nat.ltb (length a) (length v) then (v, a) else (a, v) in
      Some (np_correlate_valid a' (rev v'))
  end.

(* ------------------------------------------------------------------------- *)
(** ** [convolve] *)

(** [usrmodel.convolve].  [data[0]] raises on empty [data]. *)
Definition convolve (data kernel : list R) : option (list R) :=
  match data with
  | [] => None
  | d0 :: _ =>
      let min_num_pts := Nat.min (length data) (length kernel) in
      let padding := repeat 1 min_num_pts in
      let padded_data :=
        map (fun p => p * d0) padding ++ data
            ++ map (fun p => p * last data 0) padding in
      let* out := np_convolve_valid padded_data kernel in
      let n_start_data := py_int_half (py_len out - Z.of_nat min_num_pts) in
      Some (py_take min_num_pts (py_drop n_start_data out))
  end.

(** The convolution engine as the specification words it (section 4.1):
    edge padding by [L] copies, "valid" convolution of length
    [len(padded) - len(kernel) + 1], [n_start = floor((len(out) - L) / 2)],
    result [out[n_start : n_start + L]]. *)
Definition convolve_spec (data kernel : list R) : list R :=
  let L := Nat.min (length data) (length kernel) in
  let M := length kernel in
  let padded := repeat (hd 0 data) L ++ data ++ repeat (last data 0) L in
  let out :=
    map (fun k => big_sum M (fun j => nth (k + M - 1 - j) padded 0 * nth j kernel 0))
        (seq 0 (Z.to_nat (py_len padded - Z.of_nat M + 1))) in
  let n_start := ((py_len out - Z.of_nat L) / 2)%Z in
  py_slice n_start (n_start + Z.of_nat L) out.

(* ------------------------------------------------------------------------- *)
(** ** Complex numbers, [numpy.fft] and [scipy.signal.convolve(method="fft")] *)

Record C := mkC { Cre : R; Cim : R }.

Definition C0 : C := mkC 0 0.
Definition C1 : C := mkC 1 0.
Definition Cof (r : R) : C := mkC r 0.
Definition Cadd (z w : C) : C := mkC (Cre z + Cre w) (Cim z + Cim w).
Definition Cmul (z w : C) : C :=
  mkC (Cre z * Cre w - Cim z * Cim w) (Cre z * Cim w + Cim z * Cre w).
Definition Copp (z : C) : C := mkC (- Cre z) (- Cim z).
Definition Csub (z w : C) : C := Cadd z (Copp w).

(** [exp(1j * theta)] *)
Definition Cexpi (theta : R) : C := mkC (cos theta) (sin theta).

Fixpoint Csum (n : nat) (f : nat -> C) : C :=
  match n with
  | O => C0
  | S k => Cadd (Csum k f) (f k)
  end.

(** [np.fft.fft(a, n)]: [A[k] = sum(a[m] * exp(-2j*pi*m*k/n) for m < n)],
    [a] zero-padded (or cut) to length [n]. *)
Definition np_fft (n : nat) (a : list C) : list C :=
  map (fun k => Csum n (fun m => Cmul (nth m a C0)
                                      (Cexpi (- (2 * PI * INR (m * k) / INR n)))))
      (seq 0 n).

(** [np.fft.ifft(A, n)]: [a[m] = 1/n * sum(A[k] * exp(2j*pi*m*k/n) for k < n)]. *)
Definition np_ifft (n : nat) (a : list C) : list C :=
  map (fun m => Cmul (Cof (/ INR n))
                     (Csum n (fun k => Cmul (nth k a C0)
                                            (Cexpi (2 * PI * INR (m * k) / INR n)))))
      (seq 0 n).

Fixpoint zip_with {A B D} (f : A -> B -> D) (l1 : list A) (l2 : list B) : list D :=
  match l1, l2 with
  | a :: t1, b :: t2 => f a b :: zip_with f t1 t2
  | _, _ => []
  end.

(** Divide [n] by [p] as long as it divides. *)
Fixpoint strip_factor (p n fuel : nat) : nat :=
  match fuel with
  | O => n
  | S f => if ((1 <? p) && (0 <? n) && (n mod p =? 0))%nat%bool
           then strip_factor p (n / p) f else n
  end.

Definition is_5_smooth (n : nat) : bool :=
  (strip_factor 5 (strip_factor 3 (strip_factor 2 n n) n) n =? 1)%nat.

Fixpoint search_smooth (fuel m : nat) : nat :=
  match fuel with
  | O => m
  | S f => if is_5_smooth m then m else search_smooth f (S m)
  end.

(** [scipy.fft.next_fast_len(target, real=True)]: the least 5-smooth
    integer [>= target] (a power of two lies below [2 * target]). *)
Definition next_fast_len (target : nat) : nat := search_smooth (S target) target.

(** [_freq_domain_conv] followed by the [fslice] cut of [fftconvolve]:
    [irfft(rfft(in1, fshape) * rfft(in2, fshape), fshape)[:shape]].  For real
    inputs [irfft] of the half spectrum is the real part of the full inverse
    transform, which is what is written here. *)
Definition fft_full (in1 in2 : list R) : list R :=
  let shape := (length in1 + length in2 - 1)%nat in
  let fshape := next_fast_len shape in
  firstn shape
    (map Cre (np_ifft fshape (zip_with Cmul (np_fft fshape (map Cof in1))
                                            (np_fft fshape (map Cof in2))))).

(** [scipy.signal._signaltools._centered] in one dimension. *)
Definition centered (arr : list R) (newshape : nat) : list R :=
  let startind := ((length arr - newshape) / 2)%nat in
  firstn newshape (skipn startind arr).

(** [scipy.signal.convolve(in1, in2, mode='valid', method="fft")]: operands
    swapped so that [in1] is the longer one, and the full convolution is cut
    to its centred valid part.  For an empty operand [fftconvolve] returns
    an empty array, and the check [np.isnan(out.flat[0])] that follows
    raises [IndexError]. *)
Definition sc_convolve_fft_valid (in1 in2 : list R) : option (list R) :=
  let '(a, b) := if Nat.ltb (length in1) (length in2) then (in2, in1) else (in1, in2) in
  if ((length a =? 0) || (length b =? 0))%nat%bool then None
  else Some (centered (fft_full a b) (length a - length b + 1)).

(** [usrmodel.fft_convolve]. *)
Definition fft_convolve (data kernel : list R) : option (list R) :=
  match data with
  | [] => None
  | d0 :: _ =>
      let min_num_pts := Nat.min (length data) (length kernel) in
      let padding := repeat 1 min_num_pts in
      let padded_data :=
        map (fun p => p * d0) padding ++ data
            ++ map (fun p => p * last data 0) padding in
      let* out := sc_convolve_fft_valid padded_data kernel in
      let n_start_data := py_int_half (py_len out - Z.of_nat min_num_pts) in
      Some (py_take min_num_pts (py_drop n_start_data out))
  end.

(* ------------------------------------------------------------------------- *)
(** ** Primitives of [lmfit.lineshapes] *)

Definition tiny : R := / 10 ^ 15.

Definition s2pi : R := sqrt (2 * PI).

(** [lmfit.lineshapes.not_zero]: [copysign(max(tiny, abs(value)), value)]. *)
Definition not_zero (value : R) : R :=
  if Rlt_dec value 0 then - Rmax tiny (- value) else Rmax tiny value.

(** [lmfit.lineshapes.doniach]. *)
Definition doniach (x amplitude center sigma gamma : R) : R :=
  let arg := (x - center) / Rmax tiny sigma in
  let gm1 := 1 - gamma in
  let scale := amplitude / Rpower (Rmax tiny sigma) gm1 in
  scale * cos (PI * gamma / 2 + gm1 * atan arg) / Rpower (1 + arg ^ 2) (gm1 / 2).

(** [lmfit.lineshapes.gaussian]. *)
Definition gaussian (x amplitude center sigma : R) : R :=
  amplitude / Rmax tiny (s2pi * sigma)
  * exp (- (x - center) ^ 2 / Rmax tiny (2 * sigma ^ 2)).

Inductive thermal_form := Bose | Maxwell | Fermi.

(** [lmfit.lineshapes.thermal_distribution]:
    [real(1/(amplitude*exp((x - center)/not_zero(kt)) + offset + tiny*1j))],
    where [real(1/(u + t*1j)) = u / (u**2 + t**2)]. *)
Definition thermal_distribution (x amplitude center kt : R) (form : thermal_form) : R :=
  let offset := match form with Bose => -1 | Maxwell => 0 | Fermi => 1 end in
  let u := amplitude * exp ((x - center) / not_zero kt) + offset in
  u / (u ^ 2 + tiny ^ 2).

(** [np.sum] and [np.mean]. *)
Fixpoint np_sum (l : list R) : R :=
  match l with
  | [] => 0
  | a :: t => a + np_sum t
  end.

Definition np_mean (l : list R) : R := np_sum l / INR (length l).

(** The builtins [max] and [min] of a sequence; empty sequences raise. *)
Definition py_max (l : list R) : option R :=
  match l with [] => None | a :: t => Some (fold_left Rmax t a) end.

Definition py_min (l : list R) : option R :=
  match l with [] => None | a :: t => Some (fold_left Rmin t a) end.

(* ------------------------------------------------------------------------- *)
(** ** Composite lineshapes *)

(** The convolution kernel common to the three lineshapes:
    [1 / (np.sqrt(2 * np.pi) * s) * gaussian(x, amplitude=1, center=np.mean(x), sigma=s)]. *)
Definition gaussian_kernel (x : list R) (s : R) : list R :=
  map (fun g => 1 / (sqrt (2 * PI) * s) * g)
      (map (fun xi => gaussian xi 1 (np_mean x) s) x).

(** [amplitude * conv_temp / max(conv_temp)].  A zero maximum gives
    [inf]/[nan] in NumPy; the real division of the embedding gives [0]
    there, and no statement below depends on that case. *)
Definition amp_normalize (amplitude : R) (conv_temp : list R) : option (list R) :=
  let* m := py_max conv_temp in
  Some (map (fun v => amplitude * v / m) conv_temp).

(** [usrmodel.dublett]. *)
Definition dublett (x : list R) (amplitude sigma gamma gaussian_sigma center soc
                    height_ratio fct_coster_kronig : R) : option (list R) :=
  let* conv_temp :=
    fft_convolve
      (zip_with Rplus (map (fun xi => doniach xi 1 center sigma gamma) x)
                      (map (fun xi => doniach xi height_ratio (center - soc)
                                              (fct_coster_kronig * sigma) gamma) x))
      (gaussian_kernel x gaussian_sigma) in
  amp_normalize amplitude conv_temp.

(** [usrmodel.singlett]. *)
Definition singlett (x : list R) (amplitude sigma gamma gaussian_sigma center : R)
  : option (list R) :=
  let* conv_temp :=
    fft_convolve (map (fun xi => doniach xi 1 center sigma gamma) x)
                 (gaussian_kernel x gaussian_sigma) in
  amp_normalize amplitude conv_temp.

(** [usrmodel.kb] *)
Definition kb : R := 8.6173e-5.

(** [usrmodel.fermi_edge]. *)
Definition fermi_edge (x : list R) (amplitude center kt sigma : R) : option (list R) :=
  let* conv_temp :=
    fft_convolve (map (fun xi => thermal_distribution xi 1 center kt Fermi) x)
                 (gaussian_kernel x sigma) in
  amp_normalize amplitude conv_temp.

(* ------------------------------------------------------------------------- *)
(** ** Derived-parameter expressions *)

(** ['2*{pre:s}gaussian_sigma*1.1774'] *)
Definition gaussian_fwhm (gaussian_sigma : R) : R := 2 * gaussian_sigma * 1.1774.

(** ['{pre:s}sigma*(2+{pre:s}gamma*2.5135+({pre:s}gamma*3.6398)**4)'] *)
Definition lorentzian_fwhm (sigma gamma : R) : R :=
  sigma * (2 + gamma * 2.5135 + (gamma * 3.6398) ^ 4).

(* ------------------------------------------------------------------------- *)
(** ** Parameter hints, [make_params] and the guess heuristics *)

Open Scope string_scope.

(** A parameter hint of [lmfit.Model.param_hints]: the keys it may carry.
    [None] is an absent key (for bounds: unbounded). *)
Record hint := mk_hint {
  hint_value : option R;
  hint_min : option R;
  hint_max : option R;
  hint_expr : option string
}.

Definition hv (v : R) : hint := mk_hint (Some v) None None None.
Definition hvmin (v lo : R) : hint := mk_hint (Some v) (Some lo) None None.
Definition hmax (hi : R) : hint := mk_hint None None (Some hi) None.
Definition hvbounds (v lo hi : R) : hint := mk_hint (Some v) (Some lo) (Some hi) None.
Definition hexpr (e : string) : hint := mk_hint None None None (Some e).

Definition or_else {A} (o d : option A) : option A :=
  match o with Some a => Some a | None => d end.

(** [self.param_hints[name][key] = val] for each key given. *)
Definition merge_hint (old new : hint) : hint :=
  mk_hint (or_else (hint_value new) (hint_value old))
          (or_else (hint_min new) (hint_min old))
          (or_else (hint_max new) (hint_max old))
          (or_else (hint_expr new) (hint_expr old)).

Definition hints := list (string * hint).

(** The dictionary update in [Model.set_param_hint]:
    [if name not in self.param_hints: self.param_hints[name] = {}], then the
    given keys overwrite; a new name comes last. *)
Fixpoint hints_set (hs : hints) (name : string) (h : hint) : hints :=
  match hs with
  | [] => [(name, h)]
  | (n, o) :: t =>
      if String.eqb n name then (n, merge_hint o h) :: t
      else (n, o) :: hints_set t name h
  end.

Fixpoint lookup {A} (k : string) (l : list (string * A)) : option A :=
  match l with
  | [] => None
  | (n, a) :: t => if String.eqb n k then Some a else lookup k t
  end.

(** [if npref > 0 and name.startswith(self._prefix): name = name[npref:]]. *)
Definition strip_prefix (pre name : string) : string :=
  if (negb (String.eqb pre "") && String.prefix pre name)%bool
  then substring (String.length pre) (String.length name - String.length pre) name
  else name.

(** A model instance: its prefix, [self._param_names] (kept without the
    prefix, as the [basename]s of [make_params]) and its hints. *)
Record model := mk_model {
  prefix : string;
  param_names : list string;
  param_hints : hints
}.

(** [Model.set_param_hint(name, **kwargs)]: a name that starts with the
    model's non-empty prefix is stored with the prefix removed. *)
Definition set_param_hint (m : model) (name : string) (h : hint) : model :=
  mk_model (prefix m) (param_names m)
           (hints_set (param_hints m) (strip_prefix (prefix m) name) h).

Definition set_hints (m : model) (hs : list (string * hint)) : model :=
  fold_left (fun m' nh => set_param_hint m' (fst nh) (snd nh)) hs m.

(** An [lmfit.Parameter]: [par_value] is the stored value [_val], [None]
    for the [-inf] of a parameter never given a value. *)
Record parameter := mk_par {
  par_name : string;
  par_value : option R;
  par_min : option R;
  par_max : option R;
  par_expr : option string
}.

(** [Parameter(name=name)]. *)
Definition new_par (name : string) : parameter := mk_par name None None None None.

Definition clip_min (lo : option R) (a : R) : R :=
  match lo with Some l => if Rlt_dec a l then l else a | None => a end.

(** [if val > self.max: val = self.max elif val < self.min: val = self.min]. *)
Definition clip (lo hi : option R) (a : R) : R :=
  match hi with
  | Some h => if Rlt_dec h a then h else clip_min lo a
  | None => clip_min lo a
  end.

(** The setter [par.value = val]: the value is clipped to the bounds the
    parameter has at that moment. *)
Definition set_value (p : parameter) (a : R) : parameter :=
  mk_par (par_name p) (Some (clip (par_min p) (par_max p) a)) (par_min p) (par_max p)
         (par_expr p).

Definition opt_set (p : parameter) (o : option R) : parameter :=
  match o with Some a => set_value p a | None => p end.

(** Reading [par.value] ([Parameter._getval]): the stored value clipped to
    the bounds; the [-inf] of a parameter without value reads as [min] when
    there is one.  A parameter with an expression reads the value of its
    expression, which lmfit's evaluator computes and which is not modelled
    here: [None]. *)
Definition par_read (p : parameter) : option R :=
  match par_expr p with
  | Some _ => None
  | None =>
      match par_value p with
      | Some a => Some (clip (par_min p) (par_max p) a)
      | None => par_min p
      end
  end.

(** [for item in self._hint_names: if item in hint: setattr(par, item,
    hint[item])], in the order [value], [min], [max], [expr]. *)
Definition apply_hint (p : parameter) (h : hint) : parameter :=
  let p := opt_set p (hint_value h) in
  mk_par (par_name p) (par_value p) (or_else (hint_min h) (par_min p))
         (or_else (hint_max h) (par_max p)) (or_else (hint_expr h) (par_expr p)).

(** The first loop of [Model.make_params(kwargs)], for one name of
    [self._param_names]: a new parameter [prefix + basename] gets the hint of
    [basename], then the keyword value given without and the one given with
    the prefix. *)
Definition make_params_par (m : model) (kwargs : list (string * R)) (base : string)
  : string * parameter :=
  let name := prefix m ++ base in
  let par := match lookup base (param_hints m) with
             | Some h => apply_hint (new_par name) h
             | None => new_par name
             end in
  (name, opt_set (opt_set par (lookup base kwargs)) (lookup name kwargs)).

(** The second loop, for one hint [(basename, hint)] in order: the parameter
    [prefix + basename] (a new one at the end if there is none) gets the hint
    again and then the keyword value given without prefix. *)
Definition make_params_hint (m : model) (kwargs : list (string * R))
           (ps : list (string * parameter)) (bh : string * hint) : list (string * parameter) :=
  let name := prefix m ++ fst bh in
  let upd par := opt_set (apply_hint par (snd bh)) (lookup (fst bh) kwargs) in
  match lookup name ps with
  | Some par => map (fun np => if String.eqb (fst np) name then (name, upd par) else np) ps
  | None => ps ++ [(name, upd (new_par name))]
  end.

(** [Model.make_params(kwargs)]. *)
Definition make_params (m : model) (kwargs : list (string * R)) : list (string * parameter) :=
  fold_left (make_params_hint m kwargs) (param_hints m)
            (map (make_params_par m kwargs) (param_names m)).

(** The effect of [make_params] on the model: the second loop appends the
    names of hints that are no parameters yet to [self._param_names]. *)
Definition make_params_names (m : model) : model :=
  mk_model (prefix m)
           (param_names m
              ++ filter (fun b => negb (existsb (String.eqb b) (param_names m)))
                        (map fst (param_hints m)))
           (param_hints m).

(** [lmfit.models.update_param_vals(pars, prefix, **kwargs)]:
    [pars[prefix + key].value = val] for the names present.  The closing
    [pars.update_constraints()] only recomputes expression values, which are
    not modelled. *)
Definition update_param_vals (pars : list (string * parameter)) (pre : string)
           (kwargs : list (string * R)) : list (string * parameter) :=
  fold_left (fun ps kv =>
               map (fun np => if String.eqb (fst np) (pre ++ fst kv)
                              then (fst np, set_value (snd np) (snd kv))
                              else np) ps)
            kwargs pars.

(** [ConvGaussianDoniachSinglett.__init__] with [_set_paramhints_prefix]. *)
Definition singlett_model (pre : string) : model :=
  set_hints (mk_model pre ["amplitude"; "sigma"; "gamma"; "gaussian_sigma"; "center"] [])
    [("amplitude", hvmin 100 0); ("sigma", hvmin 0.2 0); ("gamma", hvmin 0.02 0);
     ("gaussian_sigma", hvmin 0.2 0); ("center", hvmin 100 0);
     ("gaussian_fwhm", hexpr ("2*" ++ pre ++ "gaussian_sigma*1.1774"));
     ("lorentzian_fwhm", hexpr (pre ++ "sigma*(2+" ++ pre ++ "gamma*2.5135+(" ++ pre
                                ++ "gamma*3.6398)**4)"));
     ("fwhm", hexpr ("0.5346*" ++ pre ++ "lorentzian_fwhm+sqrt(0.2166*" ++ pre
                     ++ "lorentzian_fwhm**2+" ++ pre ++ "gaussian_fwhm**2)"));
     ("height", hexpr (pre ++ "amplitude"));
     ("area", hexpr (pre ++ "fwhm*" ++ pre ++ "height"))].

(** [ConvGaussianDoniachDublett.__init__] with [_set_paramhints_prefix]. *)
Definition dublett_model (pre : string) : model :=
  set_hints (mk_model pre ["amplitude"; "sigma"; "gamma"; "gaussian_sigma"; "center";
                           "soc"; "height_ratio"; "fct_coster_kronig"] [])
    [("amplitude", hvmin 100 0); ("sigma", hvmin 0.2 0); ("gamma", hvmin 0.02 0);
     ("gaussian_sigma", hvmin 0.2 0); ("center", hv 285); ("soc", hv 2.0);
     ("height_ratio", hvmin 0.75 0); ("fct_coster_kronig", hvmin 1 0);
     ("gaussian_fwhm", hexpr ("2*" ++ pre ++ "gaussian_sigma*1.1774"));
     ("lorentzian_fwhm_p1", hexpr (pre ++ "sigma*(2+" ++ pre ++ "gamma*2.5135+(" ++ pre
                                   ++ "gamma*3.6398)**4)"));
     ("lorentzian_fwhm_p2", hexpr (pre ++ "sigma*(2+" ++ pre ++ "gamma*2.5135+(" ++ pre
                                   ++ "gamma*3.6398)**4)*" ++ pre ++ "fct_coster_kronig"));
     ("fwhm_p1", hexpr ("0.5346*" ++ pre ++ "lorentzian_fwhm_p1+sqrt(0.2166*" ++ pre
                        ++ "lorentzian_fwhm_p1**2+" ++ pre ++ "gaussian_fwhm**2)"));
     ("fwhm_p2", hexpr ("0.5346*" ++ pre ++ "lorentzian_fwhm_p2+sqrt(0.2166*" ++ pre
                        ++ "lorentzian_fwhm_p2**2+" ++ pre ++ "gaussian_fwhm**2)"));
     ("height_p1", hexpr (pre ++ "amplitude"));
     ("height_p2", hexpr (pre ++ "amplitude*" ++ pre ++ "height_ratio"));
     ("area_p1", hexpr (pre ++ "fwhm_p1*" ++ pre ++ "height_p1"));
     ("area_p2", hexpr (pre ++ "fwhm_p2*" ++ pre ++ "height_p2"))].

(** [FermiEdgeModel.__init__] with [_set_paramhints_prefix]. *)
Definition fermi_edge_model (pre : string) : model :=
  set_hints (mk_model pre ["amplitude"; "center"; "kt"; "sigma"] [])
    [("kt", hvmin 0.02585 0); ("sigma", hvmin 0.2 0); ("center", hvmin 100 0);
     ("amplitude", hvmin 100 0)].

(** The values [guess_from_peak] gives the four parameters of
    [Model(doniach)]. *)
Record peak_guess := mk_peak_guess {
  pg_sigma : R;
  pg_gamma : R;
  pg_amplitude : R;
  pg_center : R
}.

(** [x[i]] for [i >= 0] and [x[-1]]; out of range raises. *)
Definition py_get (i : nat) (l : list R) : option R := nth_error l i.
Definition py_last (l : list R) : option R :=
  match l with [] => None | _ => Some (last l 0) end.

(** The pairs [(x[i], y[i])] in increasing order of [x]: [x[np.argsort(x)]]
    and [y[np.argsort(x)]].  NumPy leaves the order among equal [x] open;
    [guess_from_peak] only reads maxima, minima, a mean and the [x] of the
    first maximum of [y], which do not depend on it. *)
Fixpoint insert_by_x (p : R * R) (l : list (R * R)) : list (R * R) :=
  match l with
  | [] => [p]
  | q :: t => if Rle_dec (fst q) (fst p) then q :: insert_by_x p t else p :: l
  end.

Definition sort_by_x (l : list (R * R)) : list (R * R) := fold_right insert_by_x [] l.

(** [np.argmax(y)]: the index of the first occurrence of [m = max(y)]. *)
Fixpoint py_index (m : R) (l : list R) : nat :=
  match l with
  | [] => O
  | a :: t => if Req_EM_T a m then O else S (py_index m t)
  end.

(** [lmfit.models.guess_from_peak(Model(doniach), y, x, negative=False)].
    [y[np.argsort(x)]] raises [IndexError] when [y] is shorter than [x];
    [max(y)] raises on an empty [x].  The parameters come from
    [Model(doniach).make_params(amplitude=amp, center=cen, sigma=sig)]:
    [gamma] keeps the default [0.0] of [doniach], and [sigma] reads through
    the bound [min=0.0] set at the end. *)
Definition guess_from_peak (y x : list R) : option peak_guess :=
  if Nat.ltb (length y) (length x) then None else
  let xy := sort_by_x (combine x y) in
  let xs := map fst xy in
  let ys := map snd xy in
  let* maxy := py_max ys in
  let* miny := py_min ys in
  let* maxx := py_max xs in
  let* minx := py_min xs in
  let* cen := py_get (py_index maxy ys) xs in
  let height := (maxy - miny) * 3 in
  let sig := (maxx - minx) / 6 in
  let x_halfmax := map fst (filter (fun p => if Rlt_dec ((maxy + miny) / 2) (snd p)
                                             then true else false) xy) in
  let '(sig, cen) :=
    if Nat.ltb 2 (length x_halfmax)
    then ((last x_halfmax 0 - hd 0 x_halfmax) / 2, np_mean x_halfmax)
    else (sig, cen) in
  let amp := height * sig in
  Some (mk_peak_guess (clip_min (Some 0) sig) 0 amp cen).

(** A [guess] call works on the model: it may set hints and raise, and the
    hints set before a raise stay set.  [st A] runs on the model and gives
    the model afterwards with [Some] result, or [None] when it raises. *)
Definition st (A : Type) : Type := model -> model * option A.

Definition st_ret {A} (a : A) : st A := fun s => (s, Some a).

Definition st_bind {A B} (c : st A) (f : A -> st B) : st B :=
  fun s => let '(s', r) := c s in
           match r with Some a => f a s' | None => (s', None) end.

(** A Python expression that may raise and does not touch the model. *)
Definition st_lift {A} (o : option A) : st A := fun s => (s, o).

Definition st_get : st model := fun s => (s, Some s).

Definition st_hint (name : string) (h : hint) : st unit :=
  fun s => (set_param_hint s name h, Some tt).

(** [self.make_params(kwargs)], with its effect on [self._param_names]. *)
Definition st_make_params (kwargs : list (string * R)) : st (list (string * parameter)) :=
  fun s => (make_params_names s, Some (make_params s kwargs)).

Notation "'let!' x ':=' c 'in' k" := (st_bind c (fun x => k))
  (at level 200, x name, c at level 100, k at level 200).

(** The outcome of a [guess] call: the model afterwards, and [None] when
    the call raises, [Some None] for the bare [return], [Some (Some pars)]
    for the parameters it returns. *)
Definition guess_result := (model * option (option (list (string * parameter))))%type.

(** [ConvGaussianDoniachSinglett.guess]. *)
Definition singlett_guess (self : model) (data : list R) (x : option (list R))
           (kwargs : list (string * R)) : guess_result :=
  match x with
  | None => (self, Some None)
  | Some x =>
      (let! xl := st_lift (py_last x) in
       let! x0 := st_lift (py_get 0 x) in
       let! _ := st_hint "sigma" (hmax (0.3 * (xl - x0))) in
       let! _ := st_hint "gaussian_sigma" (hmax (0.3 * (xl - x0))) in
       let! doniach_pars := st_lift (guess_from_peak data x) in
       let! x1 := st_lift (py_get 1 x) in
       let gaussian_sigma := (pg_sigma doniach_pars + x1 - x0) / 2 in
       let doniach_ampl :=
         pg_amplitude doniach_pars
         * sqrt (np_sum (map (fun xi => gaussian xi 1 (np_mean x) gaussian_sigma) x))
         / (2 * sqrt (np_sum x)) in
       let! params :=
         st_make_params [("amplitude", doniach_ampl); ("sigma", pg_sigma doniach_pars);
                         ("gamma", pg_gamma doniach_pars);
                         ("gaussian_sigma", gaussian_sigma);
                         ("center", pg_center doniach_pars)] in
       let! self := st_get in
       st_ret (Some (update_param_vals params (prefix self) kwargs))) self
  end.

(** [ConvGaussianDoniachDublett.guess]. *)
Definition dublett_guess (self : model) (data : list R) (x : option (list R))
           (kwargs : list (string * R)) : guess_result :=
  match x with
  | None => (self, Some None)
  | Some x =>
      (let! doniach_pars := st_lift (guess_from_peak data x) in
       let! x1 := st_lift (py_get 1 x) in
       let! x0 := st_lift (py_get 0 x) in
       let gaussian_sigma := (pg_sigma doniach_pars + x1 - x0) / 2 in
       let doniach_ampl :=
         pg_amplitude doniach_pars
         * sqrt (np_sum (map (fun xi => gaussian xi 1 (np_mean x) gaussian_sigma) x))
         / (5 * sqrt (np_sum x)) in
       let! xl := st_lift (py_last x) in
       let soc_guess := 0.3 * (xl - x0) in
       let! params :=
         st_make_params [("amplitude", doniach_ampl); ("sigma", pg_sigma doniach_pars / 5);
                         ("gamma", pg_gamma doniach_pars);
                         ("gaussian_sigma", gaussian_sigma / 5);
                         ("center", pg_center doniach_pars); ("soc", soc_guess);
                         ("height_ratio", 1)] in
       let! self := st_get in
       st_ret (Some (update_param_vals params (prefix self) kwargs))) self
  end.

(** [FermiEdgeModel.guess].  [np.mean(x)] of an empty [x] is [nan] and does
    not raise; [min(x)] does. *)
Definition fermi_edge_guess (self : model) (data : list R) (x : option (list R))
           (kwargs : list (string * R)) : guess_result :=
  match x with
  | None => (self, Some None)
  | Some x =>
      (let! xmin := st_lift (py_min x) in
       let! xmax := st_lift (py_max x) in
       let! _ := st_hint "center" (hvbounds (np_mean x) xmin xmax) in
       let! _ := st_hint "kt" (hvbounds (kb * 300) 0 (kb * 1500)) in
       let! dmax := st_lift (py_max data) in
       let! dmin := st_lift (py_min data) in
       let! _ := st_hint "amplitude" (hvbounds ((dmax - dmin) / 10) 0 (dmax - dmin)) in
       let! _ := st_hint "sigma" (hvbounds ((xmax - xmin) / INR (length x)) 0 2) in
       let! params := st_make_params [] in
       let! self := st_get in
       st_ret (Some (update_param_vals params (prefix self) kwargs))) self
  end.

(** Auxiliary predicates of the proofs. *)

(** The suffixes of a string, longest first. *)
Fixpoint suffixes (s : string) : list string :=
  match s with
  | EmptyString => [EmptyString]
  | String c t => s :: suffixes t
  end.

(** The hints of the three models: no upper bound, a lower bound of [0]
    or none, and a non-negative value or none.  [merge_hint] keeps this,
    and so does every parameter [make_params] builds from such hints. *)
Definition nonneg_hint (h : hint) : Prop :=
  hint_max h = None /\ (hint_min h = None \/ hint_min h = Some 0) /\
  (forall v, hint_value h = Some v -> 0 <= v).

Definition nonneg_par (p : parameter) : Prop :=
  par_max p = None /\ (par_min p = None \/ par_min p = Some 0) /\
  (forall v, par_value p = Some v -> 0 <= v).

Close Scope string_scope.

(* ========================================================================= *)
(** * Proofs *)

(* ------------------------------------------------------------------------- *)
(** ** Shapes in the convolution engine *)

Lemma np_correlate_valid_length (a v : list R) :
  length (np_correlate_valid a v) = (length a - length v + 1)%nat.
Proof. unfold np_correlate_valid. now rewrite length_map, length_seq. Qed.

Lemma np_convolve_valid_eq (a v : list R) :
  a <> [] -> v <> [] ->
  np_convolve_valid a v =
  Some (if Nat.ltb (length a) (length v) then np_correlate_valid v (rev a)
        else np_correlate_valid a (rev v)).
Proof.
  destruct a as [|x a], v as [|y v]; try congruence; intros _ _.
  unfold np_convolve_valid. destruct (Nat.ltb _ _); reflexivity.
Qed.

Lemma search_smooth_ge (fuel m : nat) : (m <= search_smooth fuel m)%nat.
Proof.
  revert m; induction fuel as [|f IH]; intros m; cbn [search_smooth]; [lia|].
  destruct (is_5_smooth m); [lia|]. specialize (IH (S m)). lia.
Qed.

Lemma next_fast_len_ge (t : nat) : (t <= next_fast_len t)%nat.
Proof. apply search_smooth_ge. Qed.

Lemma np_ifft_length (n : nat) (a : list C) : length (np_ifft n a) = n.
Proof. unfold np_ifft. now rewrite length_map, length_seq. Qed.

Lemma fft_full_length (a b : list R) :
  length (fft_full a b) = (length a + length b - 1)%nat.
Proof.
  unfold fft_full. rewrite length_firstn, length_map, np_ifft_length.
  pose proof (next_fast_len_ge (length a + length b - 1)). lia.
Qed.

Lemma centered_length (arr : list R) (k : nat) :
  (k <= length arr)%nat -> ((length arr - k) mod 2 = 0)%nat ->
  length (centered arr k) = k.
Proof.
  intros Hk Hm. unfold centered. rewrite length_firstn, length_skipn.
  pose proof (Nat.div_mod_eq (length arr - k) 2). lia.
Qed.

Lemma sc_convolve_fft_valid_length (a v : list R) :
  a <> [] -> v <> [] ->
  exists out, sc_convolve_fft_valid a v = Some out /\
  length out =
  ((if Nat.ltb (length a) (length v) then length v - length a
    else length a - length v) + 1)%nat.
Proof.
  intros Ha Hv.
  assert (La : (length a <> 0)%nat) by (destruct a; cbn; congruence).
  assert (Lv : (length v <> 0)%nat) by (destruct v; cbn; congruence).
  unfold sc_convolve_fft_valid.
  destruct (Nat.ltb_spec (length a) (length v)) as [Hlt|Hge].
  - replace ((length v =? 0)%nat || (length a =? 0)%nat)%bool with false
      by (symmetry; apply Bool.orb_false_iff; split; apply Nat.eqb_neq; assumption).
    eexists; split; [reflexivity|].
    rewrite centered_length; [lia|rewrite fft_full_length; lia|rewrite fft_full_length].
    replace (length v + length a - 1 - (length v - length a + 1))%nat
      with (2 * (length a - 1))%nat by lia.
    now rewrite Nat.mul_comm, Nat.Div0.mod_mul.
  - replace ((length a =? 0)%nat || (length v =? 0)%nat)%bool with false
      by (symmetry; apply Bool.orb_false_iff; split; apply Nat.eqb_neq; assumption).
    eexists; split; [reflexivity|].
    rewrite centered_length; [lia|rewrite fft_full_length; lia|rewrite fft_full_length].
    replace (length a + length v - 1 - (length a - length v + 1))%nat
      with (2 * (length v - 1))%nat by lia.
    now rewrite Nat.mul_comm, Nat.Div0.mod_mul.
Qed.

Lemma padded_length (d0 : R) (data : list R) (L : nat) :
  length (map (fun p => p * d0) (repeat 1 L) ++ data
            ++ map (fun p => p * last data 0) (repeat 1 L)) = (L + length data + L)%nat.
Proof. rewrite !length_app, !length_map, !repeat_length. lia. Qed.

Lemma padded_not_nil (d0 : R) (data : list R) (L : nat) :
  data <> [] ->
  map (fun p => p * d0) (repeat 1 L) ++ data
      ++ map (fun p => p * last data 0) (repeat 1 L) <> [].
Proof.
  intros Hd Heq. apply (f_equal (@length R)) in Heq.
  rewrite padded_length in Heq. destruct data; [congruence|cbn in Heq; lia].
Qed.

(** The slicing [(out[n_start_data:])[:min_num_pts]] shared by both engines. *)
Lemma take_drop_length {A} (L : nat) (out : list A) :
  let K := Z.of_nat (length out) in
  let q := Z.quot (K - Z.of_nat L) 2 in
  length (py_take L (py_drop (py_int_half (py_len out - Z.of_nat L)) out)) =
  Nat.min L (length out - Z.to_nat (if (q <? 0)%Z then Z.max 0 (K + q) else q)).
Proof.
  intros K q. unfold py_take, py_drop, py_int_half, py_len.
  rewrite length_firstn, length_skipn. reflexivity.
Qed.

Lemma quot2_spec (d : Z) :
  (0 <= d -> Z.quot d 2 = d / 2)%Z /\ (d < 0 -> Z.quot d 2 = - ((- d) / 2))%Z.
Proof.
  split; intros H.
  - apply Z.quot_div_nonneg; lia.
  - rewrite <- (Z.opp_involutive d) at 1. rewrite Z.quot_opp_l by lia.
    rewrite Z.quot_div_nonneg by lia. reflexivity.
Qed.

(** Length of the sliced result in terms of [N = len(data)], [M = len(kernel)]. *)
Lemma slice_length_iff (N M : nat) (out : list R) :
  (1 <= N)%nat -> (1 <= M)%nat ->
  length out = ((if Nat.ltb (Nat.min N M + N + Nat.min N M) M
                 then M - (Nat.min N M + N + Nat.min N M)
                 else Nat.min N M + N + Nat.min N M - M) + 1)%nat ->
  (length (py_take (Nat.min N M)
             (py_drop (py_int_half (py_len out - Z.of_nat (Nat.min N M))) out))
   = Nat.min N M <-> (M <= 2 * N + 1 \/ 4 * N - 1 <= M)%nat).
Proof.
  intros HN HM HK. rewrite take_drop_length. cbv zeta.
  remember (length out) as K eqn:EK; clear EK.
  match goal with |- context [Z.quot ?d 2] =>
    destruct (Z_lt_le_dec d 0) as [Hd|Hd];
    [rewrite (proj2 (quot2_spec d) Hd) | rewrite (proj1 (quot2_spec d) Hd)] end;
  match goal with
  | |- context [(?q <? 0)%Z] => destruct (Z.ltb_spec q 0) as [H2|H2]
  end;
  destruct (Nat.min_spec N M) as [[Hm1 Hm2]|[Hm1 Hm2]]; rewrite Hm2 in *;
  match type of HK with context [Nat.ltb ?a ?b] => destruct (Nat.ltb_spec a b) as [H1|H1] end;
  subst K; split; intros; Z.to_euclidean_division_equations; lia.
Qed.

(** Both engines: the same slicing applied to a valid convolution of the
    same length [|len(padded) - len(kernel)| + 1]. *)
Lemma engine_shape (data kernel : list R) :
  data <> [] -> kernel <> [] ->
  let N := length data in
  let M := length kernel in
  let L := Nat.min N M in
  exists v1 v2,
    length v1 = ((if Nat.ltb (L + N + L) M then M - (L + N + L) else L + N + L - M) + 1)%nat /\
    length v2 = length v1 /\
    convolve data kernel = Some (py_take L (py_drop (py_int_half (py_len v1 - Z.of_nat L)) v1)) /\
    fft_convolve data kernel = Some (py_take L (py_drop (py_int_half (py_len v2 - Z.of_nat L)) v2)).
Proof.
  intros Hd Hk N M L.
  destruct data as [|d0 data']; [congruence|].
  set (data := d0 :: data') in *.
  set (padded := map (fun p => p * d0) (repeat 1 L) ++ data
                   ++ map (fun p => p * last data 0) (repeat 1 L)).
  assert (Hp : padded <> []) by (apply padded_not_nil; discriminate).
  assert (Lp : length padded = (L + N + L)%nat) by apply padded_length.
  exists (if Nat.ltb (length padded) (length kernel)
          then np_correlate_valid kernel (rev padded)
          else np_correlate_valid padded (rev kernel)).
  destruct (sc_convolve_fft_valid_length padded kernel Hp Hk) as (v2 & E2 & L2).
  exists v2.
  split; [|split; [|split]].
  - rewrite <- Lp. fold M.
    destruct (Nat.ltb (length padded) M); rewrite np_correlate_valid_length, length_rev;
      reflexivity.
  - rewrite L2.
    destruct (Nat.ltb (length padded) (length kernel));
      rewrite np_correlate_valid_length, length_rev; reflexivity.
  - unfold convolve, data; cbv iota beta zeta; fold data; fold N M L padded.
    rewrite np_convolve_valid_eq by assumption. reflexivity.
  - unfold fft_convolve, data; cbv iota beta zeta; fold data; fold N M L padded.
    rewrite E2. reflexivity.
Qed.

(** ** C1: output length of [convolve] and [fft_convolve] *)

(** C1 (amended).  For non-empty [data] (length [N]) and [kernel] (length
    [M]) both engines return results of the same length, and that length is
    [min(N, M)] exactly when [M <= 2N + 1] or [M >= 4N - 1]; in particular
    whenever [M <= N], and for equal lengths. *)
Theorem convolve_length_iff (data kernel : list R) :
  data <> [] -> kernel <> [] ->
  exists out1 out2,
    convolve data kernel = Some out1 /\ fft_convolve data kernel = Some out2 /\
    length out1 = length out2 /\
    (length out1 = Nat.min (length data) (length kernel) <->
     (length kernel <= 2 * length data + 1 \/ 4 * length data - 1 <= length kernel)%nat).
Proof.
  intros Hd Hk.
  destruct (engine_shape data kernel Hd Hk) as (v1 & v2 & Hv1 & Hv2 & E1 & E2).
  do 2 eexists. split; [exact E1|]. split; [exact E2|]. split.
  - rewrite !take_drop_length, Hv2. reflexivity.
  - apply slice_length_iff; [destruct data; cbn; [congruence|lia]
                            |destruct kernel; cbn; [congruence|lia]|exact Hv1].
Qed.

(** C1 (counterexample).  [data = [1, 2]], [kernel = [1]*6]: both engines
    return one element, not [min(2, 6) = 2]. *)
Lemma convolve_length_counterexample :
  exists out1 out2,
    convolve [1; 2] (repeat 1 6) = Some out1 /\
    fft_convolve [1; 2] (repeat 1 6) = Some out2 /\
    length out1 = 1%nat /\ length out2 = 1%nat /\
    Nat.min (length [1; 2]) (length (repeat 1 6)) = 2%nat.
Proof.
  destruct (engine_shape [1; 2] (repeat 1 6)) as (v1 & v2 & Hv1 & Hv2 & E1 & E2);
    [discriminate|discriminate|].
  do 2 eexists. split; [exact E1|]. split; [exact E2|].
  rewrite !take_drop_length, Hv2, Hv1. repeat split; reflexivity.
Qed.

(* ------------------------------------------------------------------------- *)
(** ** Complex arithmetic *)

Lemma C_ext (z w : C) : Cre z = Cre w -> Cim z = Cim w -> z = w.
Proof. destruct z, w; cbn; intros -> ->; reflexivity. Qed.

Ltac C_solve := intros; repeat match goal with z : C |- _ => destruct z end;
                apply C_ext; cbn; ring.

Lemma C_ring : ring_theory C0 C1 Cadd Cmul Csub Copp (@eq C).
Proof. constructor; C_solve. Qed.

Add Ring C_ring : C_ring.

Lemma Cof_add (x y : R) : Cof (x + y) = Cadd (Cof x) (Cof y).
Proof. C_solve. Qed.

Lemma Cof_mul (x y : R) : Cof (x * y) = Cmul (Cof x) (Cof y).
Proof. C_solve. Qed.

Lemma Cexpi_add (x y : R) : Cmul (Cexpi x) (Cexpi y) = Cexpi (x + y).
Proof.
  apply C_ext; cbn; [rewrite cos_plus|rewrite sin_plus]; ring.
Qed.

Lemma Cexpi_0 : Cexpi 0 = C1.
Proof. apply C_ext; cbn; [apply cos_0|apply sin_0]. Qed.

Lemma Cmul_integral (z w : C) : Cmul z w = C0 -> z <> C0 -> w = C0.
Proof.
  destruct z as [a b], w as [c d]; intros H Hz.
  injection H as H1 H2.
  assert (Hn : a * a + b * b <> 0).
  { intros E. apply Hz.
    assert (a = 0) by nra. assert (b = 0) by nra. subst; reflexivity. }
  assert (Ec : (a * a + b * b) * c = 0).
  { transitivity (a * (a * c - b * d) + b * (a * d + b * c)); [ring|].
    rewrite H1, H2; ring. }
  assert (Ed : (a * a + b * b) * d = 0).
  { transitivity (a * (a * d + b * c) - b * (a * c - b * d)); [ring|].
    rewrite H1, H2; ring. }
  apply Rmult_integral in Ec as [Ec|Ec]; [contradiction|].
  apply Rmult_integral in Ed as [Ed|Ed]; [contradiction|].
  subst; reflexivity.
Qed.

(** *** Finite sums *)

Lemma Csum_ext (n : nat) (f g : nat -> C) :
  (forall k, (k < n)%nat -> f k = g k) -> Csum n f = Csum n g.
Proof.
  induction n as [|n IH]; intros H; cbn; [reflexivity|].
  rewrite IH by (intros; apply H; lia). rewrite H by lia. reflexivity.
Qed.

Lemma Csum_add (n : nat) (f g : nat -> C) :
  Csum n (fun k => Cadd (f k) (g k)) = Cadd (Csum n f) (Csum n g).
Proof. induction n as [|n IH]; cbn; [C_solve|rewrite IH; ring]. Qed.

Lemma Csum_scal_l (n : nat) (c : C) (f : nat -> C) :
  Cmul c (Csum n f) = Csum n (fun k => Cmul c (f k)).
Proof. induction n as [|n IH]; cbn; [C_solve|rewrite <- IH; ring]. Qed.

Lemma Csum_scal_r (n : nat) (c : C) (f : nat -> C) :
  Cmul (Csum n f) c = Csum n (fun k => Cmul (f k) c).
Proof. induction n as [|n IH]; cbn; [C_solve|rewrite <- IH; ring]. Qed.

Lemma Csum_zero (n : nat) : Csum n (fun _ => C0) = C0.
Proof. induction n as [|n IH]; cbn; [reflexivity|rewrite IH; C_solve]. Qed.

Lemma Csum_swap (n m : nat) (f : nat -> nat -> C) :
  Csum n (fun i => Csum m (fun j => f i j)) = Csum m (fun j => Csum n (fun i => f i j)).
Proof.
  induction n as [|n IH]; cbn.
  - symmetry. apply Csum_zero.
  - rewrite IH, <- Csum_add. reflexivity.
Qed.

Lemma Csum_indicator (n j : nat) (f : nat -> C) :
  Csum n (fun l => if (l =? j)%nat then f l else C0) = if (j <? n)%nat then f j else C0.
Proof.
  induction n as [|n IH]; cbn [Csum]; [reflexivity|]. rewrite IH.
  destruct (Nat.eqb_spec n j) as [->|Hne].
  - rewrite (proj2 (Nat.ltb_ge j j)) by lia. rewrite Nat.ltb_irrefl in *.
    replace (j <? S j)%nat with true by (symmetry; apply Nat.ltb_lt; lia). C_solve.
  - destruct (Nat.ltb_spec j n); destruct (Nat.ltb_spec j (S n)); try lia; C_solve.
Qed.

(** A sum whose terms vanish from index [m] on. *)
Lemma Csum_trunc (n m : nat) (f : nat -> C) :
  (m <= n)%nat -> (forall k, (m <= k)%nat -> f k = C0) -> Csum n f = Csum m f.
Proof.
  intros Hmn Hf. induction n as [|n IH].
  - replace m with 0%nat by lia. reflexivity.
  - destruct (Nat.eq_dec m (S n)) as [->|Hne]; [reflexivity|].
    cbn [Csum]. rewrite IH by lia. rewrite Hf by lia. C_solve.
Qed.

Lemma Csum_Cof (n : nat) (f : nat -> R) : Csum n (fun k => Cof (f k)) = Cof (big_sum n f).
Proof. induction n as [|n IH]; cbn; [reflexivity|rewrite IH, Cof_add; reflexivity]. Qed.

(** *** Roots of unity *)

Lemma Csum_geometric (n : nat) (theta : R) :
  Cmul (Csub (Cexpi theta) C1) (Csum n (fun k => Cexpi (INR k * theta)))
  = Csub (Cexpi (INR n * theta)) C1.
Proof.
  induction n as [|n IH]; cbn [Csum].
  - cbn [INR]. rewrite Rmult_0_l, Cexpi_0. ring.
  - transitivity (Cadd (Cmul (Csub (Cexpi theta) C1) (Csum n (fun k => Cexpi (INR k * theta))))
                       (Csub (Cmul (Cexpi theta) (Cexpi (INR n * theta))) (Cexpi (INR n * theta))));
      [ring|].
    rewrite IH, Cexpi_add, S_INR.
    replace (theta + INR n * theta) with ((INR n + 1) * theta) by ring. ring.
Qed.

Lemma trig_2PI_nat (k : nat) : cos (2 * PI * INR k) = 1 /\ sin (2 * PI * INR k) = 0.
Proof.
  pose proof (cos_period 0 k) as Hc. pose proof (sin_period 0 k) as Hs.
  rewrite Rplus_0_l, cos_0 in Hc. rewrite Rplus_0_l, sin_0 in Hs.
  replace (2 * PI * INR k) with (2 * INR k * PI) by ring. split; assumption.
Qed.

Lemma trig_2PI_int (z : Z) : cos (2 * PI * IZR z) = 1 /\ sin (2 * PI * IZR z) = 0.
Proof.
  destruct z as [|p|p].
  - rewrite Rmult_0_r, cos_0, sin_0. split; reflexivity.
  - rewrite <- (positive_nat_Z p), <- INR_IZR_INZ. apply trig_2PI_nat.
  - rewrite <- Pos2Z.opp_pos, opp_IZR, <- (positive_nat_Z p), <- INR_IZR_INZ.
    replace (2 * PI * - INR (Pos.to_nat p)) with (- (2 * PI * INR (Pos.to_nat p))) by ring.
    rewrite cos_neg, sin_neg. destruct (trig_2PI_nat (Pos.to_nat p)) as [-> ->].
    split; [reflexivity|ring].
Qed.

Lemma cos_lt_1 (t : R) : 0 < t < 2 * PI -> cos t < 1.
Proof.
  intros [H0 H1]. pose proof PI_RGT_0.
  destruct (Rle_lt_dec t PI) as [Hle|Hgt].
  - rewrite <- cos_0. apply cos_decreasing_1; lra.
  - replace (cos t) with (cos (2 * PI - t)).
    + rewrite <- cos_0. apply cos_decreasing_1; lra.
    + rewrite cos_minus, cos_2PI, sin_2PI. ring.
Qed.

Lemma root_sum_zero (n : nat) (z : Z) :
  (0 < n)%nat -> z <> 0%Z -> (Z.abs z < Z.of_nat n)%Z ->
  Csum n (fun k => Cexpi (INR k * (2 * PI * IZR z / INR n))) = C0.
Proof.
  intros Hn Hz Hzn. set (theta := 2 * PI * IZR z / INR n).
  assert (HnR : 0 < INR n) by (apply lt_0_INR; lia).
  pose proof PI_RGT_0 as Hpi.
  apply (Cmul_integral (Csub (Cexpi theta) C1)).
  - rewrite Csum_geometric.
    replace (INR n * theta) with (2 * PI * IZR z) by (unfold theta; field; lra).
    destruct (trig_2PI_int z) as [Hc Hs].
    apply C_ext; cbn; rewrite ?Hc, ?Hs; ring.
  - intros E. apply (f_equal Cre) in E. cbn in E.
    assert (Ec : cos theta = 1) by lra. clear E.
    assert (Hzn' : IZR (Z.abs z) < INR n)
      by (rewrite INR_IZR_INZ; apply IZR_lt; exact Hzn).
    assert (Hz0 : 0 < IZR (Z.abs z)) by (apply IZR_lt; lia).
    assert (Hcos : forall w, 0 < w -> w < INR n -> cos (2 * PI * w / INR n) < 1).
    { intros w Hw1 Hw2. apply cos_lt_1. split.
      - apply Rdiv_lt_0_compat; nra.
      - apply Rmult_lt_reg_r with (INR n); [lra|].
        replace (2 * PI * w / INR n * INR n) with (2 * PI * w) by (field; lra). nra. }
    destruct (Z.abs_spec z) as [[Hpos Habs]|[Hneg Habs]]; rewrite Habs in Hzn', Hz0.
    + specialize (Hcos (IZR z) Hz0 Hzn'). unfold theta in Ec. lra.
    + rewrite opp_IZR in Hzn', Hz0. specialize (Hcos (- IZR z) Hz0 Hzn').
      replace (2 * PI * - IZR z / INR n) with (- theta) in Hcos
        by (unfold theta, Rdiv; ring).
      rewrite cos_neg in Hcos. lra.
Qed.

Lemma root_sum_n (n : nat) (d : R) :
  Csum n (fun k => Cexpi (INR k * (2 * PI * IZR 0 / d))) = Cof (INR n).
Proof.
  replace (2 * PI * IZR 0 / d) with 0 by (cbn [IZR]; unfold Rdiv; ring).
  induction n as [|n IH]; cbn [Csum]; [reflexivity|].
  rewrite IH, S_INR, Rmult_0_r, Cexpi_0. C_solve.
Qed.

(** *** The convolution theorem for [np.fft] *)

Lemma nth_map_seq {A} (f : nat -> A) (n t : nat) (d : A) :
  (t < n)%nat -> nth t (map f (seq 0 n)) d = f t.
Proof.
  intros Ht. rewrite nth_indep with (d' := f 0%nat) by (rewrite length_map, length_seq; lia).
  rewrite map_nth, seq_nth by lia. reflexivity.
Qed.

Lemma nth_zip_with {A B D} (f : A -> B -> D) (l1 : list A) (l2 : list B) (k : nat)
      (d1 : A) (d2 : B) (d : D) :
  length l1 = length l2 -> (k < length l1)%nat ->
  nth k (zip_with f l1 l2) d = f (nth k l1 d1) (nth k l2 d2).
Proof.
  revert l2 k; induction l1 as [|x l1 IH]; intros [|y l2] k Hl Hk; cbn in *; try lia.
  destruct k; [reflexivity|]. apply IH; lia.
Qed.

Lemma np_fft_length (n : nat) (a : list C) : length (np_fft n a) = n.
Proof. unfold np_fft. now rewrite length_map, length_seq. Qed.

Lemma nth_np_fft_Cof (n k : nat) (a : list R) :
  (k < n)%nat ->
  nth k (np_fft n (map Cof a)) C0
  = Csum n (fun m => Cmul (Cof (nth m a 0)) (Cexpi (- (2 * PI * INR (m * k) / INR n)))).
Proof.
  intros Hk. unfold np_fft. rewrite nth_map_seq by exact Hk.
  apply Csum_ext. intros m _. change C0 with (Cof 0). rewrite map_nth. reflexivity.
Qed.

Lemma big_sum_scal_r (n : nat) (f : nat -> R) (c : R) :
  big_sum n (fun k => f k * c) = big_sum n f * c.
Proof. induction n as [|n IH]; cbn; [ring|rewrite IH; ring]. Qed.

(** One pair [(m, l)] of the double sum: the sum over the frequencies keeps
    exactly the pairs with [m + l = t]. *)
Lemma dft_pair_term (n m l t : nat) (a b : list R) :
  (length a + length b <= S n)%nat -> (t < n)%nat ->
  Cmul (Cof (nth m a 0 * nth l b 0))
       (Csum n (fun k => Cexpi (INR k * (2 * PI * IZR (Z.of_nat t - Z.of_nat m - Z.of_nat l)
                                          / INR n))))
  = if (m + l =? t)%nat then Cof (nth m a 0 * nth l b 0 * INR n) else C0.
Proof.
  intros Hab Ht.
  destruct (Nat.lt_ge_cases m (length a)) as [Hm|Hm];
    [|rewrite (nth_overflow a) by exact Hm;
      destruct (m + l =? t)%nat; rewrite !Rmult_0_l; C_solve].
  destruct (Nat.lt_ge_cases l (length b)) as [Hl|Hl];
    [|rewrite (nth_overflow b) by exact Hl;
      destruct (m + l =? t)%nat; rewrite ?Rmult_0_r, ?Rmult_0_l; C_solve].
  destruct (Nat.eqb_spec (m + l) t) as [E|E].
  - replace (Z.of_nat t - Z.of_nat m - Z.of_nat l)%Z with 0%Z by lia.
    rewrite root_sum_n, <- Cof_mul. reflexivity.
  - rewrite root_sum_zero by lia. ring.
Qed.

Lemma dft_convolution (n : nat) (a b : list R) (t : nat) :
  (length a + length b <= S n)%nat -> (t < n)%nat ->
  nth t (np_ifft n (zip_with Cmul (np_fft n (map Cof a)) (np_fft n (map Cof b)))) C0
  = Cof (big_sum (S t) (fun m => nth m a 0 * nth (t - m) b 0)).
Proof.
  intros Hab Ht.
  assert (HnR : INR n <> 0) by (apply not_0_INR; lia).
  unfold np_ifft at 1. rewrite nth_map_seq by exact Ht.
  rewrite (Csum_ext n _
    (fun k => Csum n (fun m => Csum n (fun l =>
       Cmul (Cof (nth m a 0 * nth l b 0))
            (Cexpi (INR k * (2 * PI * IZR (Z.of_nat t - Z.of_nat m - Z.of_nat l)
                             / INR n))))))).
  2:{ intros k Hk.
      rewrite (nth_zip_with _ _ _ _ C0 C0) by (rewrite ?np_fft_length; lia).
      rewrite !nth_np_fft_Cof by exact Hk.
      rewrite Csum_scal_r, Csum_scal_r. apply Csum_ext. intros m _.
      rewrite Csum_scal_l, Csum_scal_r. apply Csum_ext. intros l _.
      rewrite Cof_mul.
      transitivity (Cmul (Cmul (Cof (nth m a 0)) (Cof (nth l b 0)))
                         (Cmul (Cmul (Cexpi (- (2 * PI * INR (m * k) / INR n)))
                                     (Cexpi (- (2 * PI * INR (l * k) / INR n))))
                               (Cexpi (2 * PI * INR (t * k) / INR n)))); [ring|].
      rewrite !Cexpi_add. do 2 f_equal.
      rewrite !minus_IZR, <- !INR_IZR_INZ, !mult_INR. field. exact HnR. }
  rewrite Csum_swap.
  rewrite (Csum_ext n _
    (fun m => if (m <=? t)%nat then Cof (nth m a 0 * nth (t - m) b 0 * INR n) else C0)).
  2:{ intros m Hm. rewrite Csum_swap.
      rewrite (Csum_ext n _ (fun l => if (m + l =? t)%nat
                                      then Cof (nth m a 0 * nth l b 0 * INR n) else C0)).
      2:{ intros l Hl. rewrite <- Csum_scal_l. apply dft_pair_term; assumption. }
      destruct (Nat.leb_spec m t) as [Hmt|Hmt].
      - rewrite (Csum_ext n _ (fun l => if (l =? t - m)%nat
                                        then Cof (nth m a 0 * nth l b 0 * INR n) else C0)).
        + rewrite Csum_indicator. replace (t - m <? n)%nat with true
            by (symmetry; apply Nat.ltb_lt; lia). reflexivity.
        + intros l _. destruct (Nat.eqb_spec (m + l) t), (Nat.eqb_spec l (t - m));
            reflexivity || lia.
      - rewrite (Csum_ext n _ (fun _ => C0)); [apply Csum_zero|].
        intros l _. destruct (Nat.eqb_spec (m + l) t); [lia|reflexivity]. }
  rewrite (Csum_trunc n (S t)) by (lia || (intros k Hk; destruct (Nat.leb_spec k t);
                                            [lia|reflexivity])).
  rewrite (Csum_ext (S t) _ (fun m => Cof (nth m a 0 * nth (t - m) b 0 * INR n))).
  2:{ intros m Hm. destruct (Nat.leb_spec m t); [reflexivity|lia]. }
  rewrite Csum_Cof, big_sum_scal_r, <- Cof_mul. f_equal. field. exact HnR.
Qed.

(** *** Real sums *)

Lemma big_sum_ext (n : nat) (f g : nat -> R) :
  (forall k, (k < n)%nat -> f k = g k) -> big_sum n f = big_sum n g.
Proof.
  induction n as [|n IH]; intros H; cbn; [reflexivity|].
  rewrite IH by (intros; apply H; lia). rewrite H by lia. reflexivity.
Qed.

Lemma big_sum_shift (k n : nat) (f : nat -> R) :
  big_sum (k + n) f = big_sum k f + big_sum n (fun j => f (k + j)%nat).
Proof.
  induction n as [|n IH]; cbn [big_sum].
  - rewrite Nat.add_0_r. ring.
  - rewrite Nat.add_succ_r. cbn [big_sum]. rewrite IH. ring.
Qed.

Lemma big_sum_zero (n : nat) (f : nat -> R) :
  (forall k, (k < n)%nat -> f k = 0) -> big_sum n f = 0.
Proof.
  induction n as [|n IH]; intros H; cbn; [reflexivity|].
  rewrite IH; [rewrite H by lia; ring|]. intros; apply H; lia.
Qed.

(** *** The FFT engine computes the valid convolution *)

Lemma fft_full_nth (a b : list R) (t : nat) :
  (t < length a + length b - 1)%nat ->
  nth t (fft_full a b) 0 = big_sum (S t) (fun m => nth m a 0 * nth (t - m) b 0).
Proof.
  intros Ht. unfold fft_full.
  pose proof (next_fast_len_ge (length a + length b - 1)) as Hn.
  rewrite nth_firstn. replace (t <? length a + length b - 1)%nat with true
    by (symmetry; apply Nat.ltb_lt; exact Ht).
  change 0 with (Cre C0). rewrite map_nth.
  rewrite dft_convolution by lia. reflexivity.
Qed.

Lemma centered_nth (arr : list R) (k newshape : nat) :
  (k < newshape)%nat -> (newshape <= length arr)%nat ->
  nth k (centered arr newshape) 0 = nth ((length arr - newshape) / 2 + k) arr 0.
Proof.
  intros Hk Hn. unfold centered. rewrite nth_firstn.
  replace (k <? newshape)%nat with true by (symmetry; apply Nat.ltb_lt; exact Hk).
  rewrite nth_skipn. reflexivity.
Qed.

Lemma valid_full (a b : list R) :
  b <> [] -> (length b <= length a)%nat ->
  centered (fft_full a b) (length a - length b + 1) = np_correlate_valid a (rev b).
Proof.
  intros Hb Hba.
  assert (Lb : (1 <= length b)%nat) by (destruct b; cbn; [congruence|lia]).
  assert (Hmod : ((length a + length b - 1 - (length a - length b + 1)) / 2
                  = length b - 1)%nat).
  { replace (length a + length b - 1 - (length a - length b + 1))%nat
      with ((length b - 1) * 2)%nat by lia.
    apply Nat.div_mul. lia. }
  apply nth_ext with (d := 0) (d' := 0).
  - rewrite centered_length, np_correlate_valid_length, length_rev;
      rewrite ?fft_full_length; [reflexivity|lia|].
    replace (length a + length b - 1 - (length a - length b + 1))%nat
      with (2 * (length b - 1))%nat by lia.
    now rewrite Nat.mul_comm, Nat.Div0.mod_mul.
  - intros k Hk.
    rewrite centered_length in Hk; rewrite ?fft_full_length; [|lia|].
    2:{ replace (length a + length b - 1 - (length a - length b + 1))%nat
          with (2 * (length b - 1))%nat by lia.
        now rewrite Nat.mul_comm, Nat.Div0.mod_mul. }
    rewrite centered_nth by (rewrite ?fft_full_length; lia).
    rewrite fft_full_length, Hmod, fft_full_nth by (rewrite ?fft_full_length; lia).
    unfold np_correlate_valid. rewrite nth_map_seq by (rewrite length_rev; lia).
    replace (S (length b - 1 + k)) with (k + length b)%nat by lia.
    rewrite big_sum_shift, big_sum_zero, Rplus_0_l.
    + rewrite length_rev. apply big_sum_ext. intros j Hj.
      rewrite rev_nth by exact Hj. do 2 f_equal; lia.
    + intros m Hm. rewrite (nth_overflow b) by lia. ring.
Qed.

Lemma sc_convolve_fft_valid_eq (a v : list R) :
  a <> [] -> v <> [] ->
  sc_convolve_fft_valid a v =
  Some (if Nat.ltb (length a) (length v) then np_correlate_valid v (rev a)
        else np_correlate_valid a (rev v)).
Proof.
  intros Ha Hv.
  assert (La : (length a =? 0)%nat = false) by (destruct a; [congruence|reflexivity]).
  assert (Lv : (length v =? 0)%nat = false) by (destruct v; [congruence|reflexivity]).
  unfold sc_convolve_fft_valid.
  destruct (Nat.ltb_spec (length a) (length v)) as [H|H]; rewrite La, Lv; cbn [orb];
    f_equal; apply valid_full; assumption || lia.
Qed.

(** The two engines agree on every pair of non-empty operands. *)
Lemma fft_convolve_convolve (data kernel : list R) :
  data <> [] -> kernel <> [] -> fft_convolve data kernel = convolve data kernel.
Proof.
  intros Hd Hk. destruct data as [|d0 data']; [congruence|].
  unfold fft_convolve, convolve; cbv iota beta zeta.
  rewrite np_convolve_valid_eq, sc_convolve_fft_valid_eq;
    [reflexivity| |assumption| |assumption];
    apply padded_not_nil; discriminate.
Qed.

(** ** C2: the FFT engine and the direct engine agree *)

(** C2.  For non-empty [data] and [kernel] of equal length, [fft_convolve]
    and [convolve] return the same sequence (exact real arithmetic: the
    discrete Fourier transform path of [scipy.signal.convolve] computes the
    same valid convolution as [np.convolve]). *)
Theorem fft_convolve_agrees (data kernel : list R) :
  data <> [] -> length data = length kernel ->
  fft_convolve data kernel = convolve data kernel.
Proof.
  intros Hd Hl. apply fft_convolve_convolve; [exact Hd|].
  intros ->. destruct data; [congruence|discriminate].
Qed.

(** ** C4: the construction of [convolve] step by step *)

Lemma big_sum_first (n : nat) (f : nat -> R) :
  big_sum (S n) f = f 0%nat + big_sum n (fun j => f (S j)).
Proof.
  induction n as [|n IH]; cbn [big_sum] in *; [ring|].
  rewrite IH. ring.
Qed.

Lemma big_sum_rev (n : nat) (f : nat -> R) :
  big_sum n f = big_sum n (fun j => f (n - 1 - j)%nat).
Proof.
  induction n as [|n IH]; [reflexivity|].
  rewrite (big_sum_first n (fun j => f (S n - 1 - j)%nat)).
  cbn [big_sum]. rewrite IH.
  replace (S n - 1 - 0)%nat with n by lia.
  rewrite (big_sum_ext n (fun j => f (n - 1 - j)%nat) (fun j => f (S n - 1 - S j)%nat))
    by (intros; f_equal; lia).
  ring.
Qed.

Lemma firstn_eq_min {A} (a b : nat) (l : list A) :
  Nat.min a (length l) = Nat.min b (length l) -> firstn a l = firstn b l.
Proof.
  revert a b; induction l as [|x l IH]; intros a b H.
  - now rewrite !firstn_nil.
  - destruct a, b; cbn in H; try lia; [reflexivity|].
    cbn. f_equal. apply IH. lia.
Qed.

Lemma map_mul_repeat (d : R) (L : nat) :
  map (fun p => p * d) (repeat 1 L) = repeat d L.
Proof. induction L as [|L IH]; cbn; [reflexivity|rewrite IH, Rmult_1_l; reflexivity]. Qed.

Lemma correlate_rev_kernel (padded kernel : list R) :
  (length kernel <= length padded)%nat ->
  np_correlate_valid padded (rev kernel) =
  map (fun k => big_sum (length kernel)
                  (fun j => nth (k + length kernel - 1 - j) padded 0 * nth j kernel 0))
      (seq 0 (length padded - length kernel + 1)).
Proof.
  intros H. unfold np_correlate_valid. rewrite length_rev.
  apply map_ext_in. intros k _.
  rewrite big_sum_rev. apply big_sum_ext. intros j Hj.
  rewrite rev_nth by lia. f_equal; f_equal; lia.
Qed.

(** For kernels no longer than [2 len(data) + 1] the code is exactly the
    construction of section 4.1. *)
Lemma convolve_eq_spec (data kernel : list R) :
  data <> [] -> kernel <> [] -> (length kernel <= 2 * length data + 1)%nat ->
  convolve data kernel = Some (convolve_spec data kernel).
Proof.
  intros Hd Hk HM.
  destruct data as [|d0 data']; [congruence|].
  set (data := d0 :: data') in *.
  set (N := length data) in *. set (M := length kernel) in *.
  set (L := Nat.min N M).
  assert (HN : (1 <= N)%nat) by (unfold N, data; cbn; lia).
  assert (HM1 : (1 <= M)%nat) by (unfold M; destruct kernel; cbn; [congruence|lia]).
  set (padded := map (fun p => p * d0) (repeat 1 L) ++ data
                   ++ map (fun p => p * last data 0) (repeat 1 L)).
  assert (Hp : padded <> []) by (apply padded_not_nil; discriminate).
  assert (Lp : length padded = (L + N + L)%nat) by apply padded_length.
  assert (HPM : (M <= length padded)%nat) by (rewrite Lp; unfold L; lia).
  unfold convolve, data; cbv iota beta zeta; fold data; fold N M L padded.
  rewrite np_convolve_valid_eq by assumption.
  replace (Nat.ltb (length padded) M) with false
    by (symmetry; apply Nat.ltb_ge; exact HPM).
  cbn [obind]. f_equal.
  unfold convolve_spec; cbv zeta; fold N M L.
  replace (repeat (hd 0 data) L ++ data ++ repeat (last data 0) L) with padded
    by (unfold padded; rewrite !map_mul_repeat; reflexivity).
  replace (Z.to_nat (py_len padded - Z.of_nat M + 1))
    with (length padded - length kernel + 1)%nat by (unfold py_len, M; lia).
  unfold M. rewrite <- (correlate_rev_kernel padded kernel HPM). fold M.
  rewrite (proj2 (Nat.ltb_ge _ _) HPM).
  set (out := np_correlate_valid padded (rev kernel)).
  assert (Lo : length out = (L + N + L - M + 1)%nat)
    by (unfold out; rewrite np_correlate_valid_length, length_rev, Lp; reflexivity).
  assert (HLo : (L <= length out)%nat) by (rewrite Lo; unfold L; lia).
  unfold py_take, py_drop, py_slice, py_int_half, py_len.
  set (d := (Z.of_nat (length out) - Z.of_nat L)%Z).
  assert (Hd0 : (0 <= d)%Z) by (unfold d; lia).
  rewrite (proj1 (quot2_spec d) Hd0).
  assert (Hq : (0 <= d / 2 <= d)%Z) by (split; Z.to_euclidean_division_equations; lia).
  replace (d / 2 <? 0)%Z with false by (symmetry; apply Z.ltb_ge; lia).
  replace (d / 2 + Z.of_nat L <? 0)%Z with false by (symmetry; apply Z.ltb_ge; lia).
  rewrite (Z.min_l (d / 2)) by (unfold d in *; lia).
  apply firstn_eq_min. rewrite length_skipn. unfold d in *. lia.
Qed.

(** C4.  For a non-empty [data] of length [N] and a non-empty [kernel] of
    length [M <= 2N + 1] (in particular for [M <= N] and for [M = N]), both
    [convolve] and [fft_convolve] return exactly the sequence of the stated
    construction: [L = min(N, M)] copies of [data[0]] and of [data[-1]]
    around [data], the valid convolution [out] of length
    [len(padded) - M + 1], [n_start = floor((len(out) - L) / 2)] and
    [out[n_start : n_start + L]]. *)
Theorem convolve_matches_construction (data kernel : list R) :
  data <> [] -> kernel <> [] -> (length kernel <= 2 * length data + 1)%nat ->
  convolve data kernel = Some (convolve_spec data kernel) /\
  fft_convolve data kernel = Some (convolve_spec data kernel).
Proof.
  intros Hd Hk HM.
  assert (E := convolve_eq_spec data kernel Hd Hk HM).
  split; [exact E|].
  rewrite fft_convolve_convolve by assumption. exact E.
Qed.

(** C4, counterexample.  With [N = 4] and [M = 10] the padded array has
    length 12 and [out] has length 3, so [(len(out) - L) / 2 = -1/2]: the
    code truncates it to 0 and returns [out[0:][:4]], three values, while the
    construction with [floor] gives [n_start = -1] and [out[-1:3]], one
    value. *)
Lemma convolve_construction_counterexample :
  exists out,
    convolve [1; 1; 1; 1] (repeat 1 10) = Some out /\
    length out = 3%nat /\
    length (convolve_spec [1; 1; 1; 1] (repeat 1 10)) = 1%nat.
Proof.
  destruct (engine_shape [1; 1; 1; 1] (repeat 1 10)) as (v1 & v2 & Hv1 & Hv2 & E1 & E2);
    [discriminate|discriminate|].
  eexists. split; [exact E1|]. split.
  - rewrite take_drop_length, Hv1. reflexivity.
  - unfold convolve_spec, py_slice, py_len; cbv zeta.
    rewrite ?length_firstn, ?length_skipn, ?length_map, ?length_seq, ?length_app,
      ?repeat_length.
    reflexivity.
Qed.

(** ** Instances of the engine theorems *)

Lemma convolve_length_iff_witness :
  exists out1 out2,
    convolve [1; 2] [3; 4] = Some out1 /\ fft_convolve [1; 2] [3; 4] = Some out2 /\
    length out1 = length out2 /\
    (length out1 = Nat.min (length [1; 2]) (length [3; 4]) <->
     (length [3; 4] <= 2 * length [1; 2] + 1 \/ 4 * length [1; 2] - 1 <= length [3; 4])%nat).
Proof. apply convolve_length_iff; discriminate. Defined.

Lemma fft_convolve_agrees_witness :
  fft_convolve [1; 2] [3; 4] = convolve [1; 2] [3; 4].
Proof. apply fft_convolve_agrees; [discriminate|reflexivity]. Defined.

Lemma convolve_matches_construction_witness :
  convolve [1; 2] [3] = Some (convolve_spec [1; 2] [3]) /\
  fft_convolve [1; 2] [3] = Some (convolve_spec [1; 2] [3]).
Proof. apply convolve_matches_construction; [discriminate|discriminate|cbn; lia]. Defined.

(* ------------------------------------------------------------------------- *)
(** ** C7: the derived FWHM expressions *)

(** C7.  With [sigma > 0], the expression of [lorentzian_fwhm] is strictly
    increasing in [gamma] on [gamma >= 0]; the expression of [gaussian_fwhm]
    is strictly increasing in [gaussian_sigma]. *)
Theorem fwhm_strictly_increasing (sigma g1 g2 s1 s2 : R) :
  0 < sigma -> 0 <= g1 -> g1 < g2 -> s1 < s2 ->
  lorentzian_fwhm sigma g1 < lorentzian_fwhm sigma g2 /\
  gaussian_fwhm s1 < gaussian_fwhm s2.
Proof.
  intros Hs Hg1 Hg Hs12. unfold lorentzian_fwhm, gaussian_fwhm. split; [|lra].
  apply Rmult_lt_compat_l; [exact Hs|].
  assert ((g1 * 3.6398) ^ 4 <= (g2 * 3.6398) ^ 4)
    by (apply pow_incr; split; lra).
  lra.
Qed.

(** C7, counterexample.  [sigma = 0] is within the declared bounds
    ([min=0]), and there [lorentzian_fwhm] does not depend on [gamma]. *)
Lemma fwhm_counterexample :
  lorentzian_fwhm 0 0 = lorentzian_fwhm 0 1.
Proof. unfold lorentzian_fwhm. ring. Qed.

Lemma fwhm_strictly_increasing_witness :
  lorentzian_fwhm 1 0 < lorentzian_fwhm 1 1 /\ gaussian_fwhm 0 < gaussian_fwhm 1.
Proof. apply fwhm_strictly_increasing; lra. Defined.

(* ------------------------------------------------------------------------- *)
(** ** C9: [guess] without a grid *)

(** C9.  For every model instance and every [data], [guess] with [x=None]
    returns nothing (Python's bare [return]) and leaves the model, hence its
    parameter hints, unchanged; this holds for the singlet, the doublet and
    the Fermi-edge model. *)
Theorem guess_without_grid (self : model) (data : list R) (kwargs : list (string * R)) :
  singlett_guess self data None kwargs = (self, Some None) /\
  dublett_guess self data None kwargs = (self, Some None) /\
  fermi_edge_guess self data None kwargs = (self, Some None).
Proof. repeat split. Qed.

(* ------------------------------------------------------------------------- *)
(** ** C8: the bounds of the Fermi-edge guess *)

Lemma fold_max_bounds (t : list R) (a : R) :
  a <= fold_left Rmax t a /\ (forall y, In y t -> y <= fold_left Rmax t a).
Proof.
  revert a; induction t as [|b t IH]; intros a; cbn.
  - split; [lra|tauto].
  - destruct (IH (Rmax a b)) as [H1 H2]. split.
    + eapply Rle_trans; [apply Rmax_l|exact H1].
    + intros y [<-|Hy]; [|auto].
      eapply Rle_trans; [apply Rmax_r|exact H1].
Qed.

Lemma fold_min_bounds (t : list R) (a : R) :
  fold_left Rmin t a <= a /\ (forall y, In y t -> fold_left Rmin t a <= y).
Proof.
  revert a; induction t as [|b t IH]; intros a; cbn.
  - split; [lra|tauto].
  - destruct (IH (Rmin a b)) as [H1 H2]. split.
    + eapply Rle_trans; [exact H1|apply Rmin_l].
    + intros y [<-|Hy]; [|auto].
      eapply Rle_trans; [exact H1|apply Rmin_r].
Qed.

Lemma py_max_ge (l : list R) (m : R) :
  py_max l = Some m -> forall y, In y l -> y <= m.
Proof.
  destruct l as [|a t]; cbn; [discriminate|]. intros [= <-] y [<-|Hy].
  - apply (proj1 (fold_max_bounds t a)).
  - apply (proj2 (fold_max_bounds t a)); exact Hy.
Qed.

Lemma py_min_le (l : list R) (m : R) :
  py_min l = Some m -> forall y, In y l -> m <= y.
Proof.
  destruct l as [|a t]; cbn; [discriminate|]. intros [= <-] y [<-|Hy].
  - apply (proj1 (fold_min_bounds t a)).
  - apply (proj2 (fold_min_bounds t a)); exact Hy.
Qed.

Lemma py_max_some (l : list R) : l <> [] -> exists m, py_max l = Some m.
Proof. destruct l; [congruence|eexists; reflexivity]. Qed.

Lemma py_min_some (l : list R) : l <> [] -> exists m, py_min l = Some m.
Proof. destruct l; [congruence|eexists; reflexivity]. Qed.

Lemma np_sum_bounds (l : list R) (lo hi : R) :
  (forall y, In y l -> lo <= y <= hi) ->
  INR (length l) * lo <= np_sum l <= INR (length l) * hi.
Proof.
  induction l as [|a t IH]; intros H; cbn [np_sum length];
    [change (INR 0) with 0; lra|].
  rewrite S_INR.
  assert (Ha := H a (or_introl eq_refl)).
  assert (Ht : forall y, In y t -> lo <= y <= hi) by (intros; apply H; right; assumption).
  specialize (IH Ht). rewrite !Rmult_plus_distr_r, !Rmult_1_l. lra.
Qed.

Lemma np_mean_bounds (l : list R) (lo hi : R) :
  l <> [] -> py_min l = Some lo -> py_max l = Some hi ->
  lo <= np_mean l <= hi.
Proof.
  intros Hne Hlo Hhi.
  assert (Hn : 0 < INR (length l))
    by (apply lt_0_INR; destruct l; [congruence|cbn; lia]).
  destruct (np_sum_bounds l lo hi) as [H1 H2].
  { intros y Hy. split; [eapply py_min_le|eapply py_max_ge]; eassumption. }
  unfold np_mean. split.
  - apply (Rmult_le_reg_r (INR (length l))); [exact Hn|].
    unfold Rdiv. rewrite Rmult_assoc, Rinv_l by lra. lra.
  - apply (Rmult_le_reg_r (INR (length l))); [exact Hn|].
    unfold Rdiv. rewrite Rmult_assoc, Rinv_l by lra. lra.
Qed.

Lemma py_min_le_max (l : list R) (lo hi : R) :
  l <> [] -> py_min l = Some lo -> py_max l = Some hi -> lo <= hi.
Proof.
  intros Hne Hlo Hhi. destruct l as [|a t]; [congruence|].
  apply Rle_trans with a;
    [eapply py_min_le|eapply py_max_ge]; eauto; left; reflexivity.
Qed.

Lemma eqb_append_l (p a b : string) : String.eqb (p ++ a)%string (p ++ b)%string = String.eqb a b.
Proof.
  induction p as [|c p IH]; [reflexivity|].
  cbn. rewrite Ascii.eqb_refl. exact IH.
Qed.

(** Strings: the prefix test and the cut of [strip_prefix]. *)

Lemma string_prefix_app (p s : string) : String.prefix p (p ++ s) = true.
Proof.
  induction p as [|c p IH]; [destruct s; reflexivity|].
  cbn. destruct (Ascii.ascii_dec c c) as [_|n]; [exact IH|congruence].
Qed.

Lemma substring_app_l (p s : string) (m : nat) :
  substring (String.length p) m (p ++ s) = substring 0 m s.
Proof. induction p as [|c p IH]; [reflexivity|]. cbn. exact IH. Qed.

Lemma substring_full (s : string) : substring 0 (String.length s) s = s.
Proof. induction s as [|c s IH]; [reflexivity|]. cbn. rewrite IH. reflexivity. Qed.

Lemma string_length_app (p s : string) :
  String.length (p ++ s) = (String.length p + String.length s)%nat.
Proof. induction p as [|c p IH]; [reflexivity|]. cbn. rewrite IH. reflexivity. Qed.

Lemma substring_length_le (n m : nat) (s : string) :
  (String.length (substring n m s) <= m)%nat.
Proof.
  revert n m; induction s as [|c s IH]; intros [|n] [|k]; cbn; try lia.
  - specialize (IH 0%nat k). lia.
  - apply IH.
  - apply IH.
Qed.

Lemma strip_prefix_app (pre n : string) : strip_prefix pre (pre ++ n) = n.
Proof.
  unfold strip_prefix. destruct pre as [|c p]; [reflexivity|].
  rewrite string_prefix_app. cbn [String.eqb negb andb].
  rewrite string_length_app, substring_app_l.
  replace (String.length (String c p) + String.length n - String.length (String c p))%nat
    with (String.length n) by lia.
  apply substring_full.
Qed.

Lemma strip_prefix_not (pre n : string) :
  pre = EmptyString \/ String.prefix pre n = false -> strip_prefix pre n = n.
Proof.
  unfold strip_prefix. intros [->|H]; [reflexivity|].
  rewrite H, Bool.andb_false_r. reflexivity.
Qed.

Lemma strip_prefix_length (pre n : string) :
  (String.length (strip_prefix pre n) <= String.length n)%nat.
Proof.
  unfold strip_prefix.
  destruct (negb (String.eqb pre EmptyString) && String.prefix pre n)%bool; [|lia].
  etransitivity; [apply substring_length_le|lia].
Qed.

Lemma eqb_shorter (a b : string) :
  (String.length a < String.length b)%nat -> String.eqb a b = false.
Proof. intros H. apply String.eqb_neq. intros ->. lia. Qed.

(** The hint dictionary. *)

Lemma lookup_hints_set (hs : hints) (n k : string) (h : hint) :
  lookup k (hints_set hs n h) =
  if String.eqb n k
  then Some (match lookup k hs with Some o => merge_hint o h | None => h end)
  else lookup k hs.
Proof.
  induction hs as [|[m o] t IH]; cbn.
  - destruct (String.eqb n k); reflexivity.
  - destruct (String.eqb_spec m n) as [->|Hmn]; cbn.
    + destruct (String.eqb n k); reflexivity.
    + rewrite IH. destruct (String.eqb_spec m k) as [->|Hmk];
        destruct (String.eqb_spec n k) as [->|Hnk]; congruence.
Qed.

Lemma keys_hints_set (hs : hints) (n : string) (h : hint) :
  map fst (hints_set hs n h) =
  if existsb (String.eqb n) (map fst hs) then map fst hs else map fst hs ++ [n].
Proof.
  induction hs as [|[m o] t IH]; [reflexivity|]. cbn.
  destruct (String.eqb_spec m n) as [->|Hmn].
  - rewrite String.eqb_refl. reflexivity.
  - replace (String.eqb n m) with false by (symmetry; apply String.eqb_neq; congruence).
    cbn. rewrite IH. destruct (existsb (String.eqb n) (map fst t)); reflexivity.
Qed.

Lemma nodup_hints_set (hs : hints) (n : string) (h : hint) :
  NoDup (map fst hs) -> NoDup (map fst (hints_set hs n h)).
Proof.
  intros H. rewrite keys_hints_set.
  destruct (existsb (String.eqb n) (map fst hs)) eqn:E; [exact H|].
  apply NoDup_app; [exact H|constructor; [intros []|constructor]|].
  intros y Hy Hy'. destruct Hy' as [<-|[]]. apply Bool.not_true_iff_false in E. apply E.
  apply existsb_exists. exists n. split; [exact Hy|apply String.eqb_refl].
Qed.

Lemma set_param_hint_shape (m : model) (n : string) (h : hint) :
  prefix (set_param_hint m n h) = prefix m /\
  param_names (set_param_hint m n h) = param_names m.
Proof. split; reflexivity. Qed.

Lemma set_hints_shape (m : model) (hs : list (string * hint)) :
  prefix (set_hints m hs) = prefix m /\ param_names (set_hints m hs) = param_names m /\
  (NoDup (map fst (param_hints m)) -> NoDup (map fst (param_hints (set_hints m hs)))).
Proof.
  unfold set_hints. revert m; induction hs as [|nh hs IH]; intros m; [auto|].
  cbn [fold_left]. destruct (IH (set_param_hint m (fst nh) (snd nh))) as (E1 & E2 & E3).
  rewrite E1, E2. split; [reflexivity|]. split; [reflexivity|].
  intros H. apply E3. apply nodup_hints_set. exact H.
Qed.

(** [make_params]: the parameter of a function argument. *)

Lemma lookup_app_some {A} (k : string) (l r : list (string * A)) (a : A) :
  lookup k l = Some a -> lookup k (l ++ r) = Some a.
Proof.
  induction l as [|[n b] t IH]; cbn; [discriminate|].
  destruct (String.eqb n k); [exact (fun H => H)|exact IH].
Qed.

Lemma lookup_map_replace {A} (N name : string) (v : A) (ps : list (string * A)) :
  lookup N (map (fun np => if String.eqb (fst np) name then (name, v) else np) ps) =
  if String.eqb name N then option_map (fun _ => v) (lookup N ps) else lookup N ps.
Proof.
  induction ps as [|[n a] t IH]; cbn; [destruct (String.eqb name N); reflexivity|].
  destruct (String.eqb_spec n name) as [->|Hn]; cbn.
  - rewrite IH. destruct (String.eqb name N); reflexivity.
  - rewrite IH. destruct (String.eqb_spec name N) as [->|HN]; [|reflexivity].
    replace (String.eqb n N) with false by (symmetry; apply String.eqb_neq; exact Hn).
    reflexivity.
Qed.

Lemma lookup_make_params_hint (m : model) (kw : list (string * R))
      (ps : list (string * parameter)) (bh : string * hint) (N : string) (p : parameter) :
  lookup N ps = Some p ->
  lookup N (make_params_hint m kw ps bh) =
  Some (if String.eqb (prefix m ++ fst bh) N
        then opt_set (apply_hint p (snd bh)) (lookup (fst bh) kw) else p).
Proof.
  intros Hp. unfold make_params_hint.
  destruct (lookup (prefix m ++ fst bh) ps) as [q|] eqn:Eq.
  - rewrite lookup_map_replace, Hp. cbn.
    destruct (String.eqb_spec (prefix m ++ fst bh) N) as [E|E]; [|reflexivity].
    rewrite E, Hp in Eq. injection Eq as ->. reflexivity.
  - rewrite (lookup_app_some _ _ _ p Hp).
    destruct (String.eqb_spec (prefix m ++ fst bh) N) as [E|E]; [|reflexivity].
    rewrite E, Hp in Eq. discriminate.
Qed.

Lemma lookup_fold_make_params_hint (m : model) (kw : list (string * R)) (hs : hints)
      (ps : list (string * parameter)) (N : string) (p : parameter) :
  lookup N ps = Some p ->
  lookup N (fold_left (make_params_hint m kw) hs ps) =
  Some (fold_left (fun q bh => if String.eqb (prefix m ++ fst bh) N
                               then opt_set (apply_hint q (snd bh)) (lookup (fst bh) kw) else q)
                  hs p).
Proof.
  revert ps p; induction hs as [|bh hs IH]; intros ps p Hp; [exact Hp|].
  cbn [fold_left]. apply IH. apply lookup_make_params_hint. exact Hp.
Qed.

Lemma fold_one_key (g : string * hint -> parameter -> parameter) (base : string)
      (hs : hints) (p : parameter) :
  NoDup (map fst hs) ->
  fold_left (fun q bh => if String.eqb (fst bh) base then g bh q else q) hs p =
  match lookup base hs with Some h => g (base, h) p | None => p end.
Proof.
  revert p; induction hs as [|[b h] t IH]; intros p Hnd; [reflexivity|].
  inversion Hnd as [|? ? Hb Hnd']; subst. cbn [fold_left fst lookup].
  destruct (String.eqb_spec b base) as [->|Hb'].
  - rewrite IH by exact Hnd'.
    destruct (lookup base t) eqn:E; [|reflexivity].
    exfalso. apply Hb. clear -E. induction t as [|[c o] t IH]; cbn in *; [discriminate|].
    destruct (String.eqb_spec c base) as [->|_]; [left; reflexivity|right; apply IH; exact E].
  - apply IH. exact Hnd'.
Qed.

Lemma lookup_map_make_params_par (m : model) (kw : list (string * R)) (b : string)
      (l : list string) :
  In b l ->
  lookup (prefix m ++ b) (map (make_params_par m kw) l) = Some (snd (make_params_par m kw b)).
Proof.
  induction l as [|a l IH]; cbn; [contradiction|]. intros Hin.
  rewrite eqb_append_l. destruct (String.eqb_spec a b) as [->|Hab]; [reflexivity|].
  apply IH. destruct Hin; [congruence|assumption].
Qed.

Lemma fold_left_ext_fun {A B} (f g : A -> B -> A) (l : list B) (a : A) :
  (forall x y, f x y = g x y) -> fold_left f l a = fold_left g l a.
Proof. intros H. revert a; induction l as [|y l IH]; intros a; cbn; [reflexivity|]. rewrite H. apply IH. Qed.

(** The parameter [prefix + b] of a function argument [b]: the first loop,
    then its hint once more and the keyword value without prefix. *)
Lemma lookup_make_params (m : model) (kw : list (string * R)) (b : string) :
  In b (param_names m) -> NoDup (map fst (param_hints m)) ->
  lookup (prefix m ++ b) (make_params m kw) =
  Some (match lookup b (param_hints m) with
        | Some h => opt_set (apply_hint (snd (make_params_par m kw b)) h) (lookup b kw)
        | None => snd (make_params_par m kw b)
        end).
Proof.
  intros Hb Hnd. unfold make_params.
  rewrite (lookup_fold_make_params_hint m kw _ _ _ _ (lookup_map_make_params_par m kw b _ Hb)).
  f_equal.
  erewrite fold_left_ext_fun.
  2:{ intros q bh. rewrite eqb_append_l. reflexivity. }
  exact (fold_one_key (fun bh q => opt_set (apply_hint q (snd bh)) (lookup (fst bh) kw))
                      b _ _ Hnd).
Qed.

(** Clipping. *)

Lemma clip_in (lo hi : option R) (a : R) :
  (forall l, lo = Some l -> l <= a) -> (forall h, hi = Some h -> a <= h) -> clip lo hi a = a.
Proof.
  intros Hl Hh. unfold clip, clip_min.
  destruct hi as [h|]; [destruct (Rlt_dec h a) as [H|_]; [specialize (Hh h eq_refl); lra|]|];
    (destruct lo as [l|]; [destruct (Rlt_dec a l) as [H|_]; [specialize (Hl l eq_refl); lra|]|]);
    reflexivity.
Qed.

(** The parameter made from a hint twice (both loops of [make_params]) with
    no keyword value, when the hint's value lies within its bounds. *)
Lemma apply_hint_twice (name : string) (h : hint) (v : R) :
  hint_value h = Some v ->
  (forall l, hint_min h = Some l -> l <= v) -> (forall u, hint_max h = Some u -> v <= u) ->
  apply_hint (apply_hint (new_par name) h) h =
  mk_par name (Some v) (hint_min h) (hint_max h) (hint_expr h).
Proof.
  intros Hv Hl Hu. destruct h as [hv hl hh he]; cbn in *; subst hv.
  unfold apply_hint, opt_set, set_value, new_par; cbn.
  rewrite (clip_in (or_else hl None) (or_else hh None) v).
  - destruct hl, hh, he; reflexivity.
  - destruct hl; cbn; [exact Hl|discriminate].
  - destruct hh; cbn; [exact Hu|discriminate].
Qed.

Lemma par_read_in (p : parameter) (v : R) :
  par_expr p = None -> par_value p = Some v ->
  (forall l, par_min p = Some l -> l <= v) -> (forall u, par_max p = Some u -> v <= u) ->
  par_read p = Some v.
Proof.
  intros He Hv Hl Hu. unfold par_read. rewrite He, Hv, clip_in by assumption. reflexivity.
Qed.

(** A property of hints kept by [merge_hint] holds of every hint of a
    model built by [set_param_hint]. *)
Lemma hints_set_forall (P : hint -> Prop) (hs : hints) (n : string) (h : hint) :
  (forall o h', P o -> P h' -> P (merge_hint o h')) ->
  Forall (fun bh => P (snd bh)) hs -> P h -> Forall (fun bh => P (snd bh)) (hints_set hs n h).
Proof.
  intros Hm Hs Hh. induction Hs as [|[b o] t Ho Ht IH]; cbn.
  - constructor; [exact Hh|constructor].
  - destruct (String.eqb b n); constructor; cbn in *; auto.
Qed.

Lemma set_hints_forall (P : hint -> Prop) (m : model) (hs : list (string * hint)) :
  (forall o h', P o -> P h' -> P (merge_hint o h')) ->
  Forall (fun bh => P (snd bh)) (param_hints m) -> Forall (fun bh => P (snd bh)) hs ->
  Forall (fun bh => P (snd bh)) (param_hints (set_hints m hs)).
Proof.
  intros Hm Hp Hs. unfold set_hints. revert m Hp.
  induction Hs as [|[n h] t Hh Ht IH]; intros m Hp; [exact Hp|].
  cbn [fold_left]. apply IH. cbn. apply hints_set_forall; assumption.
Qed.

Lemma lookup_forall {A} (P : A -> Prop) (k : string) (l : list (string * A)) (a : A) :
  Forall (fun bh => P (snd bh)) l -> lookup k l = Some a -> P a.
Proof.
  intros H. induction H as [|[n b] t Hb Ht IH]; cbn; [discriminate|].
  destruct (String.eqb n k); [intros [= <-]; exact Hb|exact IH].
Qed.

Lemma merge_hint_no_expr (o h : hint) :
  hint_expr o = None -> hint_expr h = None -> hint_expr (merge_hint o h) = None.
Proof. intros Ho Hh. cbn. rewrite Hh, Ho. reflexivity. Qed.

Lemma fermi_edge_model_no_expr (pre : string) :
  Forall (fun bh => hint_expr (snd bh) = None) (param_hints (fermi_edge_model pre)).
Proof.
  unfold fermi_edge_model.
  apply (set_hints_forall (fun h => hint_expr h = None));
    [intros; apply merge_hint_no_expr; assumption|constructor|].
  repeat constructor.
Qed.

Lemma hints_set_forall_no_expr (hs : hints) (n : string) (h : hint) :
  Forall (fun bh => hint_expr (snd bh) = None) hs -> hint_expr h = None ->
  Forall (fun bh => hint_expr (snd bh) = None) (hints_set hs n h).
Proof.
  apply (hints_set_forall (fun h => hint_expr h = None)).
  intros; apply merge_hint_no_expr; assumption.
Qed.

(** Without keyword values, the parameter of a function argument with a
    hint whose value lies within its bounds. *)
Lemma lookup_make_params_hinted (m : model) (b : string) (h : hint) (v : R) :
  In b (param_names m) -> NoDup (map fst (param_hints m)) ->
  lookup b (param_hints m) = Some h -> hint_value h = Some v ->
  (forall l, hint_min h = Some l -> l <= v) -> (forall u, hint_max h = Some u -> v <= u) ->
  lookup (prefix m ++ b) (make_params m []) =
  Some (mk_par (prefix m ++ b) (Some v) (hint_min h) (hint_max h) (hint_expr h)).
Proof.
  intros Hb Hnd Lh Hv Hl Hu. rewrite lookup_make_params by assumption.
  rewrite Lh. unfold make_params_par. rewrite Lh. cbn [lookup opt_set snd].
  f_equal. apply apply_hint_twice; assumption.
Qed.

(** [FermiEdgeModel.guess] on a non-empty grid and non-empty data. *)
Lemma fermi_edge_guess_run (self : model) (data x : list R) (kw : list (string * R))
      (xmin xmax dmin dmax : R) :
  py_min x = Some xmin -> py_max x = Some xmax ->
  py_min data = Some dmin -> py_max data = Some dmax ->
  let s := set_param_hint (set_param_hint (set_param_hint (set_param_hint self
             "center" (hvbounds (np_mean x) xmin xmax))
             "kt" (hvbounds (kb * 300) 0 (kb * 1500)))
             "amplitude" (hvbounds ((dmax - dmin) / 10) 0 (dmax - dmin)))
             "sigma" (hvbounds ((xmax - xmin) / INR (length x)) 0 2) in
  fermi_edge_guess self data (Some x) kw =
    (make_params_names s, Some (Some (update_param_vals (make_params s []) (prefix self) kw))).
Proof.
  intros H1 H2 H3 H4 s. unfold fermi_edge_guess, st_bind, st_lift, st_hint, st_get, st_ret,
    st_make_params.
  rewrite H1, H2, H4, H3. reflexivity.
Qed.

Lemma update_param_vals_nil (ps : list (string * parameter)) (pre : string) :
  update_param_vals ps pre [] = ps.
Proof. reflexivity. Qed.

Lemma fermi_edge_model_shape (pre : string) :
  prefix (fermi_edge_model pre) = pre /\
  param_names (fermi_edge_model pre) = ["amplitude"; "center"; "kt"; "sigma"]%string /\
  NoDup (map fst (param_hints (fermi_edge_model pre))).
Proof.
  destruct (set_hints_shape (mk_model pre ["amplitude"; "center"; "kt"; "sigma"]%string [])
              [("kt", hvmin 0.02585 0); ("sigma", hvmin 0.2 0); ("center", hvmin 100 0);
               ("amplitude", hvmin 100 0)]%string) as (E1 & E2 & E3).
  split; [exact E1|]. split; [exact E2|]. apply E3. constructor.
Qed.

(** C8 (amended).  For the empty prefix and every prefix with which
    neither ['center'] nor ['amplitude'] starts, every non-empty [data] and
    every non-empty grid [x] (in particular equal-length sequences with at
    least two points), [FermiEdgeModel.guess(data, x)] returns parameters
    whose [center] reads a value in [[min(x), max(x)]] (its bounds) and whose
    [amplitude] reads a value in [[0, max(data) - min(data)]] (its bounds). *)
Theorem fermi_edge_guess_bounds (pre : string) (data x : list R) :
  (pre = EmptyString \/
   (String.prefix pre "center" = false /\ String.prefix pre "amplitude" = false)) ->
  x <> [] -> data <> [] ->
  exists self' pars xmin xmax dmin dmax c a,
    fermi_edge_guess (fermi_edge_model pre) data (Some x) [] = (self', Some (Some pars)) /\
    py_min x = Some xmin /\ py_max x = Some xmax /\
    py_min data = Some dmin /\ py_max data = Some dmax /\
    lookup (pre ++ "center")%string pars = Some c /\
    lookup (pre ++ "amplitude")%string pars = Some a /\
    par_min c = Some xmin /\ par_max c = Some xmax /\
    par_min a = Some 0 /\ par_max a = Some (dmax - dmin) /\
    (exists vc, par_read c = Some vc /\ xmin <= vc <= xmax) /\
    (exists va, par_read a = Some va /\ 0 <= va <= dmax - dmin).
Proof.
  intros Hpre Hx Hd.
  destruct (py_min_some x Hx) as [xmin Hxmin].
  destruct (py_max_some x Hx) as [xmax Hxmax].
  destruct (py_min_some data Hd) as [dmin Hdmin].
  destruct (py_max_some data Hd) as [dmax Hdmax].
  assert (Hm := np_mean_bounds x xmin xmax Hx Hxmin Hxmax).
  assert (Hdd := py_min_le_max data dmin dmax Hd Hdmin Hdmax).
  destruct (fermi_edge_model_shape pre) as (Ep & En & Hnd).
  assert (Ne0 := fermi_edge_model_no_expr pre).
  set (m0 := fermi_edge_model pre) in *. clearbody m0.
  set (hc := hvbounds (np_mean x) xmin xmax).
  set (hk := hvbounds (kb * 300) 0 (kb * 1500)).
  set (ha := hvbounds ((dmax - dmin) / 10) 0 (dmax - dmin)).
  set (hs := hvbounds ((xmax - xmin) / INR (length x)) 0 2).
  set (s := set_param_hint (set_param_hint (set_param_hint (set_param_hint m0
              "center" hc) "kt" hk) "amplitude" ha) "sigma" hs).
  assert (Rn := fermi_edge_guess_run m0 data x [] xmin xmax dmin dmax Hxmin Hxmax Hdmin Hdmax).
  cbv zeta in Rn. fold hc hk ha hs s in Rn.
  assert (Sp : prefix s = pre) by exact Ep.
  assert (Sn : param_names s = ["amplitude"; "center"; "kt"; "sigma"]%string) by exact En.
  assert (Snd : NoDup (map fst (param_hints s)))
    by (unfold s; cbn [param_hints set_param_hint]; repeat apply nodup_hints_set; exact Hnd).
  assert (Sc : strip_prefix pre "center" = "center"%string)
    by (apply strip_prefix_not; destruct Hpre as [->|[H _]]; [left|right]; auto).
  assert (Sa : strip_prefix pre "amplitude" = "amplitude"%string)
    by (apply strip_prefix_not; destruct Hpre as [->|[_ H]]; [left|right]; auto).
  assert (Lk := strip_prefix_length pre "kt").
  assert (Ls := strip_prefix_length pre "sigma").
  assert (Lc : lookup "center" (param_hints s) =
               Some (match lookup "center" (param_hints m0) with
                     | Some o => merge_hint o hc | None => hc end)).
  { unfold s; cbn [param_hints prefix set_param_hint]. rewrite Ep, !lookup_hints_set, Sc, Sa.
    rewrite (eqb_shorter (strip_prefix pre "sigma")) by (cbn in *; lia).
    rewrite (eqb_shorter (strip_prefix pre "kt")) by (cbn in *; lia).
    reflexivity. }
  assert (La : lookup "amplitude" (param_hints s) =
               Some (match lookup "amplitude" (param_hints m0) with
                     | Some o => merge_hint o ha | None => ha end)).
  { unfold s; cbn [param_hints prefix set_param_hint]. rewrite Ep, !lookup_hints_set, Sc, Sa.
    rewrite (eqb_shorter (strip_prefix pre "sigma")) by (cbn in *; lia).
    rewrite (eqb_shorter (strip_prefix pre "kt")) by (cbn in *; lia).
    reflexivity. }
  assert (Ne : Forall (fun bh => hint_expr (snd bh) = None) (param_hints s)).
  { unfold s; cbn [param_hints set_param_hint].
    repeat apply hints_set_forall_no_expr; try reflexivity. exact Ne0. }
  set (oc := match lookup "center" (param_hints m0) with
             | Some o => merge_hint o hc | None => hc end) in Lc.
  set (oa := match lookup "amplitude" (param_hints m0) with
             | Some o => merge_hint o ha | None => ha end) in La.
  assert (Oc : hint_value oc = Some (np_mean x) /\ hint_min oc = Some xmin /\
               hint_max oc = Some xmax /\ hint_expr oc = None).
  { split; [unfold oc; destruct (lookup "center" (param_hints m0)); reflexivity|].
    split; [unfold oc; destruct (lookup "center" (param_hints m0)); reflexivity|].
    split; [unfold oc; destruct (lookup "center" (param_hints m0)); reflexivity|].
    exact (lookup_forall (fun h => hint_expr h = None) _ _ _ Ne Lc). }
  assert (Oa : hint_value oa = Some ((dmax - dmin) / 10) /\ hint_min oa = Some 0 /\
               hint_max oa = Some (dmax - dmin) /\ hint_expr oa = None).
  { split; [unfold oa; destruct (lookup "amplitude" (param_hints m0)); reflexivity|].
    split; [unfold oa; destruct (lookup "amplitude" (param_hints m0)); reflexivity|].
    split; [unfold oa; destruct (lookup "amplitude" (param_hints m0)); reflexivity|].
    exact (lookup_forall (fun h => hint_expr h = None) _ _ _ Ne La). }
  destruct Oc as (Vc & Mc & Xc & Ec). destruct Oa as (Va & Ma & Xa & Ea).
  assert (Pc := lookup_make_params_hinted s "center" oc (np_mean x)
                  ltac:(rewrite Sn; cbn; tauto) Snd Lc Vc
                  ltac:(rewrite Mc; intros l [= <-]; lra) ltac:(rewrite Xc; intros u [= <-]; lra)).
  assert (Pa := lookup_make_params_hinted s "amplitude" oa ((dmax - dmin) / 10)
                  ltac:(rewrite Sn; cbn; tauto) Snd La Va
                  ltac:(rewrite Ma; intros l [= <-]; lra) ltac:(rewrite Xa; intros u [= <-]; lra)).
  rewrite Sp in Pc, Pa.
  do 8 eexists. split; [exact Rn|].
  do 4 (split; [eassumption|]).
  rewrite update_param_vals_nil.
  split; [exact Pc|]. split; [exact Pa|].
  cbn [par_min par_max]. rewrite Mc, Xc, Ma, Xa.
  do 4 (split; [reflexivity|]). split.
  - exists (np_mean x). split; [|exact Hm].
    apply par_read_in; cbn; try assumption; [reflexivity| |]; intros ? [= <-]; lra.
  - exists ((dmax - dmin) / 10). split; [|split; lra].
    apply par_read_in; cbn; try assumption; [reflexivity| |]; intros ? [= <-]; lra.
Qed.

Lemma fermi_edge_guess_bounds_witness :
  (""%string = EmptyString \/
   (String.prefix "" "center" = false /\ String.prefix "" "amplitude" = false)) /\
  [0; 1] <> [] /\ [1; 2] <> [] /\
  exists self' pars xmin xmax dmin dmax c a,
    fermi_edge_guess (fermi_edge_model "") [1; 2] (Some [0; 1]) [] = (self', Some (Some pars)) /\
    py_min [0; 1] = Some xmin /\ py_max [0; 1] = Some xmax /\
    py_min [1; 2] = Some dmin /\ py_max [1; 2] = Some dmax /\
    lookup ("" ++ "center")%string pars = Some c /\
    lookup ("" ++ "amplitude")%string pars = Some a /\
    par_min c = Some xmin /\ par_max c = Some xmax /\
    par_min a = Some 0 /\ par_max a = Some (dmax - dmin) /\
    (exists vc, par_read c = Some vc /\ xmin <= vc <= xmax) /\
    (exists va, par_read a = Some va /\ 0 <= va <= dmax - dmin).
Proof.
  split; [left; reflexivity|]. split; [discriminate|]. split; [discriminate|].
  apply (fermi_edge_guess_bounds "" [1; 2] [0; 1]); [left; reflexivity|discriminate|discriminate].
Defined.

(** C8, counterexample.  With the prefix ['c'], [set_param_hint] strips
    ['c'] from ['center'] and files the hint under ['enter']: after the guess
    on [data = [1, 2]], [x = [0, 1]] the parameter ['ccenter'] gets no hint:
    it holds no value (lmfit's [-inf]), reads none, and has no bounds. *)
Lemma fermi_edge_guess_bounds_counterexample :
  exists self' pars c,
    fermi_edge_guess (fermi_edge_model "c") [1; 2] (Some [0; 1]) [] = (self', Some (Some pars)) /\
    lookup "ccenter" pars = Some c /\
    par_read c = None /\ par_min c = None /\ par_max c = None.
Proof.
  destruct (py_min_some [0; 1]) as [xmin Hxmin]; [discriminate|].
  destruct (py_max_some [0; 1]) as [xmax Hxmax]; [discriminate|].
  destruct (py_min_some [1; 2]) as [dmin Hdmin]; [discriminate|].
  destruct (py_max_some [1; 2]) as [dmax Hdmax]; [discriminate|].
  rewrite (fermi_edge_guess_run _ _ _ _ _ _ _ _ Hxmin Hxmax Hdmin Hdmax).
  do 3 eexists. split; [reflexivity|].
  split; [cbn; reflexivity|]. cbn. repeat split.
Qed.

(* ------------------------------------------------------------------------- *)
(** ** Linearity of the convolution engine *)

Lemma map_seq_shift {A} (g : nat -> A) (s n : nat) :
  map g (seq s n) = map (fun i => g (i + s)%nat) (seq 0 n).
Proof.
  revert s g; induction n as [|n IH]; intros s g; [reflexivity|].
  cbn [seq map]. rewrite (IH (S s) g), (IH 1%nat (fun i => g (i + s)%nat)).
  f_equal; try (f_equal; lia).
  apply map_ext. intros i. f_equal. lia.
Qed.

Lemma firstn_seq_min (n s l : nat) : firstn n (seq s l) = seq s (Nat.min n l).
Proof.
  revert s l; induction n as [|n IH]; intros s l; [reflexivity|].
  destruct l as [|l]; [reflexivity|]. cbn. f_equal. apply IH.
Qed.

(** Every output value of [convolve] is a sum of products of an entry of
    the edge-padded data and an entry of the kernel, at positions that only
    depend on the two lengths. *)
Lemma convolve_form (N M : nat) :
  (1 <= N)%nat -> (1 <= M)%nat ->
  exists (n len : nat) (alpha beta : nat -> nat -> nat),
    forall data kernel, length data = N -> length kernel = M ->
    convolve data kernel =
    Some (map (fun i => big_sum n (fun j =>
                nth (alpha i j) (repeat (hd 0 data) (Nat.min N M) ++ data
                                 ++ repeat (last data 0) (Nat.min N M)) 0
                * nth (beta i j) kernel 0))
              (seq 0 len)).
Proof.
  intros HN HM.
  set (L := Nat.min N M). set (P := (L + N + L)%nat).
  set (K := ((if Nat.ltb P M then M - P else P - M) + 1)%nat).
  set (q := Z.quot (Z.of_nat K - Z.of_nat L) 2).
  set (s := Z.to_nat (if (q <? 0)%Z then Z.max 0 (Z.of_nat K + q) else q)).
  exists (if Nat.ltb P M then P else M), (Nat.min L (K - s)),
    (fun i j => if Nat.ltb P M then (P - 1 - j)%nat else (i + s + j)%nat),
    (fun i j => if Nat.ltb P M then (i + s + j)%nat else (M - 1 - j)%nat).
  intros data kernel Hn Hm.
  destruct data as [|d0 data']; [cbn in Hn; lia|].
  assert (Hk : kernel <> []) by (intros ->; cbn in Hm; lia).
  set (data := d0 :: data') in *.
  unfold convolve, data; cbv iota beta zeta; fold data. rewrite Hn, Hm. fold L.
  set (padded := map (fun p => p * d0) (repeat 1 L) ++ data
                   ++ map (fun p => p * last data 0) (repeat 1 L)).
  assert (Lp : length padded = P) by (unfold padded; rewrite padded_length, Hn; reflexivity).
  assert (Ep : padded = repeat (hd 0 data) L ++ data ++ repeat (last data 0) L)
    by (unfold padded; rewrite !map_mul_repeat; reflexivity).
  rewrite np_convolve_valid_eq by first [exact Hk | apply padded_not_nil; discriminate].
  cbn [obind]. rewrite Lp, Hm. rewrite <- Ep.
  assert (Eout : exists g, (if Nat.ltb P M then np_correlate_valid kernel (rev padded)
                            else np_correlate_valid padded (rev kernel)) = map g (seq 0 K) /\
                  forall i, g i = big_sum (if Nat.ltb P M then P else M)
                                    (fun j => nth (if Nat.ltb P M then (P - 1 - j)%nat else (i + j)%nat) padded 0
                                              * nth (if Nat.ltb P M then (i + j)%nat else (M - 1 - j)%nat) kernel 0)).
  { unfold K, np_correlate_valid. rewrite !length_rev.
    destruct (Nat.ltb_spec P M) as [HPM|HPM].
    - rewrite ?Lp, ?Hm. eexists. split; [reflexivity|]. intros i.
      apply big_sum_ext. intros j Hj. rewrite rev_nth by lia.
      rewrite Lp, Rmult_comm; f_equal; f_equal; lia.
    - rewrite ?Lp, ?Hm. eexists. split; [reflexivity|]. intros i.
      apply big_sum_ext. intros j Hj. rewrite rev_nth by lia.
      rewrite ?Hm; f_equal; f_equal; lia. }
  destruct Eout as (g & Eg & Hg). rewrite Eg. f_equal.
  unfold py_take, py_drop, py_int_half, py_len. rewrite length_map, length_seq. fold q s.
  rewrite skipn_map, firstn_map, skipn_seq, firstn_seq_min, map_seq_shift.
  replace (0 + s)%nat with s by lia.
  apply map_ext. intros i. rewrite Hg.
  destruct (Nat.ltb P M); apply big_sum_ext; intros j _; f_equal; f_equal; lia.
Qed.

Lemma nth_map_Rmult (s : R) (l : list R) (k : nat) :
  nth k (map (Rmult s) l) 0 = s * nth k l 0.
Proof.
  revert k; induction l as [|a l IH]; intros [|k]; cbn; try ring; apply IH.
Qed.

Lemma nth_zip_with_total {A B D} (f : A -> B -> D) (l1 : list A) (l2 : list B)
      (k : nat) (d1 : A) (d2 : B) (d : D) :
  length l1 = length l2 -> f d1 d2 = d ->
  nth k (zip_with f l1 l2) d = f (nth k l1 d1) (nth k l2 d2).
Proof.
  revert l2 k; induction l1 as [|a l1 IH]; intros [|b l2] k Hl Hd; cbn in Hl;
    try discriminate.
  - destruct k; cbn; symmetry; exact Hd.
  - destruct k; cbn; [reflexivity|]. apply IH; [lia|exact Hd].
Qed.

Lemma length_zip_with_eq {A B D} (f : A -> B -> D) (l1 : list A) (l2 : list B) :
  length l1 = length l2 -> length (zip_with f l1 l2) = length l1.
Proof.
  revert l2; induction l1 as [|a l1 IH]; intros [|b l2] Hl; cbn in *; try lia.
  f_equal. apply IH. lia.
Qed.

Lemma zip_with_app {A B D} (f : A -> B -> D) (a1 b1 : list A) (a2 b2 : list B) :
  length a1 = length a2 ->
  zip_with f (a1 ++ b1) (a2 ++ b2) = zip_with f a1 a2 ++ zip_with f b1 b2.
Proof.
  revert a2; induction a1 as [|x a1 IH]; intros [|y a2] Hl; cbn in *; try lia;
    [reflexivity|]. f_equal. apply IH. lia.
Qed.

Lemma zip_with_repeat {A B D} (f : A -> B -> D) (a : A) (b : B) (n : nat) :
  zip_with f (repeat a n) (repeat b n) = repeat (f a b) n.
Proof. induction n as [|n IH]; cbn; [reflexivity|rewrite IH; reflexivity]. Qed.

Lemma last_zip_with {A B D} (f : A -> B -> D) (l1 : list A) (l2 : list B)
      (d1 : A) (d2 : B) (d : D) :
  length l1 = length l2 -> l1 <> [] ->
  last (zip_with f l1 l2) d = f (last l1 d1) (last l2 d2).
Proof.
  revert l2; induction l1 as [|a l1 IH]; intros [|b l2] Hl Hne; cbn in Hl;
    try (congruence || lia).
  destruct l1 as [|a' l1]; destruct l2 as [|b' l2]; cbn in Hl; try lia;
    [reflexivity|].
  change (last (zip_with f (a :: a' :: l1) (b :: b' :: l2)) d)
    with (last (zip_with f (a' :: l1) (b' :: l2)) d).
  change (last (a :: a' :: l1) d1) with (last (a' :: l1) d1).
  change (last (b :: b' :: l2) d2) with (last (b' :: l2) d2).
  apply IH; [cbn; lia|discriminate].
Qed.

Lemma pad_zip_with (f : R -> R -> R) (d1 d2 : list R) (L : nat) :
  length d1 = length d2 -> d1 <> [] ->
  repeat (hd 0 (zip_with f d1 d2)) L ++ zip_with f d1 d2
    ++ repeat (last (zip_with f d1 d2) 0) L =
  zip_with f (repeat (hd 0 d1) L ++ d1 ++ repeat (last d1 0) L)
             (repeat (hd 0 d2) L ++ d2 ++ repeat (last d2 0) L).
Proof.
  intros Hl Hne.
  rewrite zip_with_app by (rewrite !repeat_length; reflexivity).
  rewrite zip_with_app by exact Hl.
  rewrite !zip_with_repeat, (last_zip_with f d1 d2 0 0 0 Hl Hne).
  destruct d1 as [|a d1]; [congruence|]. destruct d2 as [|b d2]; [cbn in Hl; lia|].
  reflexivity.
Qed.

Lemma map_zip_with_split {A} (F : R -> R -> R) (g1 g2 : A -> R) (l : list A) :
  map (fun i => F (g1 i) (g2 i)) l = zip_with F (map g1 l) (map g2 l).
Proof. induction l as [|a l IH]; cbn; [reflexivity|rewrite IH; reflexivity]. Qed.

Lemma big_sum_lin (n : nat) (f g : nat -> R) (h : R) :
  big_sum n (fun j => f j + h * g j) = big_sum n f + h * big_sum n g.
Proof. induction n as [|n IH]; cbn; [ring|rewrite IH; ring]. Qed.

Lemma big_sum_scal_l (n : nat) (f : nat -> R) (c : R) :
  big_sum n (fun j => c * f j) = c * big_sum n f.
Proof. induction n as [|n IH]; cbn; [ring|rewrite IH; ring]. Qed.

(** [convolve] is linear in [data] (for data of one length). *)
Lemma convolve_lin (d1 d2 kernel : list R) (h : R) :
  d1 <> [] -> kernel <> [] -> length d1 = length d2 ->
  exists r1 r2,
    convolve d1 kernel = Some r1 /\ convolve d2 kernel = Some r2 /\
    length r1 = length r2 /\
    convolve (zip_with (fun a b => a + h * b) d1 d2) kernel =
    Some (zip_with (fun a b => a + h * b) r1 r2).
Proof.
  intros Hd Hk Hl.
  assert (H1 : (1 <= length d1)%nat) by (destruct d1; [congruence|cbn; lia]).
  assert (H2 : (1 <= length kernel)%nat) by (destruct kernel; [congruence|cbn; lia]).
  destruct (convolve_form (length d1) (length kernel) H1 H2) as (n & len & al & be & Hf).
  do 2 eexists. split; [apply Hf; reflexivity|]. split; [apply Hf; [symmetry; exact Hl|reflexivity]|].
  split; [rewrite !length_map; reflexivity|].
  rewrite Hf by first [reflexivity | apply length_zip_with_eq; exact Hl].
  f_equal. rewrite pad_zip_with by assumption.
  rewrite <- map_zip_with_split. apply map_ext. intros i.
  rewrite <- big_sum_lin. apply big_sum_ext. intros j _.
  rewrite (nth_zip_with_total _ _ _ _ 0 0 0);
    [ring|rewrite !length_app, !repeat_length, Hl; reflexivity|ring].
Qed.

(** [convolve] is homogeneous in [kernel]. *)
Lemma convolve_kernel_scale (data kernel : list R) (s : R) :
  data <> [] -> kernel <> [] ->
  exists r, convolve data kernel = Some r /\
            convolve data (map (Rmult s) kernel) = Some (map (Rmult s) r).
Proof.
  intros Hd Hk.
  assert (H1 : (1 <= length data)%nat) by (destruct data; [congruence|cbn; lia]).
  assert (H2 : (1 <= length kernel)%nat) by (destruct kernel; [congruence|cbn; lia]).
  destruct (convolve_form (length data) (length kernel) H1 H2) as (n & len & al & be & Hf).
  eexists. split; [apply Hf; reflexivity|].
  rewrite Hf by (rewrite ?length_map; reflexivity).
  f_equal. rewrite map_map. apply map_ext. intros i.
  rewrite <- big_sum_scal_l. apply big_sum_ext. intros j _.
  rewrite nth_map_Rmult. ring.
Qed.

Lemma fold_max_scale (t : list R) (a s : R) :
  0 <= s -> fold_left Rmax (map (Rmult s) t) (s * a) = s * fold_left Rmax t a.
Proof.
  revert a; induction t as [|b t IH]; intros a Hs; cbn; [reflexivity|].
  rewrite RmaxRmult by exact Hs. apply IH. exact Hs.
Qed.

Lemma py_max_scale (l : list R) (s : R) :
  0 <= s -> py_max (map (Rmult s) l) = option_map (Rmult s) (py_max l).
Proof.
  intros Hs. destruct l as [|a t]; [reflexivity|].
  cbn [map py_max option_map]. rewrite fold_max_scale by exact Hs. reflexivity.
Qed.

Lemma amp_normalize_scale_amp (c a : R) (ct : list R) :
  amp_normalize (c * a) ct = option_map (map (Rmult c)) (amp_normalize a ct).
Proof.
  unfold amp_normalize. destruct (py_max ct) as [m|]; cbn; [|reflexivity].
  f_equal. rewrite map_map. apply map_ext. intros v. unfold Rdiv. ring.
Qed.

Lemma amp_normalize_scale_data (a s : R) (ct : list R) :
  0 < s -> amp_normalize a (map (Rmult s) ct) = amp_normalize a ct.
Proof.
  intros Hs. unfold amp_normalize. rewrite py_max_scale by lra.
  destruct (py_max ct) as [m|]; cbn; [|reflexivity].
  f_equal. rewrite map_map. apply map_ext. intros v.
  destruct (Req_dec m 0) as [->|Hm].
  - rewrite Rmult_0_r. unfold Rdiv. rewrite Rinv_0. ring.
  - field. split; lra.
Qed.

Lemma fft_convolve_kernel_scale_normalize (data kernel : list R) (a s : R) :
  0 < s ->
  (let* ct := fft_convolve data (map (Rmult s) kernel) in amp_normalize a ct) =
  (let* ct := fft_convolve data kernel in amp_normalize a ct).
Proof.
  intros Hs.
  destruct data as [|d0 data']; [reflexivity|].
  destruct kernel as [|k0 kernel']; [reflexivity|].
  destruct (convolve_kernel_scale (d0 :: data') (k0 :: kernel') s) as (r & E1 & E2);
    [discriminate|discriminate|].
  rewrite !fft_convolve_convolve by discriminate.
  rewrite E1, E2. cbn [obind]. apply amp_normalize_scale_data. exact Hs.
Qed.

Lemma obind_option_map_amp (o : option (list R)) (c a : R) :
  (let* ct := o in amp_normalize (c * a) ct) =
  option_map (map (Rmult c)) (let* ct := o in amp_normalize a ct).
Proof. destruct o as [ct|]; cbn; [apply amp_normalize_scale_amp|reflexivity]. Qed.

(* ------------------------------------------------------------------------- *)
(** ** C10: homogeneity in the amplitude, invariance under kernel scaling *)

(** C10.  For every grid [x] and all parameters, each composite lineshape
    is homogeneous in [amplitude]: [f(x; c*amplitude, ...) = c * f(x;
    amplitude, ...)] pointwise (both sides fail together when [f] raises),
    for [singlett], [dublett] and [fermi_edge]; and for every [s > 0],
    multiplying the Gaussian kernel by [s] before the convolution leaves
    each of the three outputs unchanged, so the prefactor
    [1/(sqrt(2 pi) gaussian_sigma)] cancels in the normalisation. *)
Theorem lineshapes_homogeneous
  (x : list R) (c s amplitude sigma gamma gaussian_sigma center soc height_ratio
                fct_coster_kronig kt : R) :
  0 < s ->
  singlett x (c * amplitude) sigma gamma gaussian_sigma center =
    option_map (map (Rmult c)) (singlett x amplitude sigma gamma gaussian_sigma center) /\
  dublett x (c * amplitude) sigma gamma gaussian_sigma center soc height_ratio
          fct_coster_kronig =
    option_map (map (Rmult c))
      (dublett x amplitude sigma gamma gaussian_sigma center soc height_ratio
               fct_coster_kronig) /\
  fermi_edge x (c * amplitude) center kt sigma =
    option_map (map (Rmult c)) (fermi_edge x amplitude center kt sigma) /\
  (let* conv_temp :=
     fft_convolve (map (fun xi => doniach xi 1 center sigma gamma) x)
                  (map (Rmult s) (gaussian_kernel x gaussian_sigma)) in
   amp_normalize amplitude conv_temp) =
    singlett x amplitude sigma gamma gaussian_sigma center /\
  (let* conv_temp :=
     fft_convolve
       (zip_with Rplus (map (fun xi => doniach xi 1 center sigma gamma) x)
                       (map (fun xi => doniach xi height_ratio (center - soc)
                                               (fct_coster_kronig * sigma) gamma) x))
       (map (Rmult s) (gaussian_kernel x gaussian_sigma)) in
   amp_normalize amplitude conv_temp) =
    dublett x amplitude sigma gamma gaussian_sigma center soc height_ratio
            fct_coster_kronig /\
  (let* conv_temp :=
     fft_convolve (map (fun xi => thermal_distribution xi 1 center kt Fermi) x)
                  (map (Rmult s) (gaussian_kernel x sigma)) in
   amp_normalize amplitude conv_temp) =
    fermi_edge x amplitude center kt sigma.
Proof.
  intros Hs. unfold singlett, dublett, fermi_edge.
  split; [apply obind_option_map_amp|].
  split; [apply obind_option_map_amp|].
  split; [apply obind_option_map_amp|].
  split; [apply fft_convolve_kernel_scale_normalize; exact Hs|].
  split; apply fft_convolve_kernel_scale_normalize; exact Hs.
Qed.

Lemma lineshapes_homogeneous_witness :
  let x := [0; 1] in
  singlett x (2 * 1) 1 0 1 0 = option_map (map (Rmult 2)) (singlett x 1 1 0 1 0) /\
  dublett x (2 * 1) 1 0 1 0 1 1 1 =
    option_map (map (Rmult 2)) (dublett x 1 1 0 1 0 1 1 1) /\
  fermi_edge x (2 * 1) 0 1 1 = option_map (map (Rmult 2)) (fermi_edge x 1 0 1 1) /\
  (let* conv_temp :=
     fft_convolve (map (fun xi => doniach xi 1 0 1 0) x)
                  (map (Rmult 3) (gaussian_kernel x 1)) in
   amp_normalize 1 conv_temp) = singlett x 1 1 0 1 0 /\
  (let* conv_temp :=
     fft_convolve
       (zip_with Rplus (map (fun xi => doniach xi 1 0 1 0) x)
                       (map (fun xi => doniach xi 1 (0 - 1) (1 * 1) 0) x))
       (map (Rmult 3) (gaussian_kernel x 1)) in
   amp_normalize 1 conv_temp) = dublett x 1 1 0 1 0 1 1 1 /\
  (let* conv_temp :=
     fft_convolve (map (fun xi => thermal_distribution xi 1 0 1 Fermi) x)
                  (map (Rmult 3) (gaussian_kernel x 1)) in
   amp_normalize 1 conv_temp) = fermi_edge x 1 0 1 1.
Proof. intros x. apply (lineshapes_homogeneous x 2 3 1 1 0 1 0 1 1 1 1). lra. Defined.

(* ------------------------------------------------------------------------- *)
(** ** C6: the doublet at [height_ratio = 0] and as [height_ratio -> 0] *)

Lemma doniach_amp (xi amplitude center sigma gamma : R) :
  doniach xi amplitude center sigma gamma = amplitude * doniach xi 1 center sigma gamma.
Proof. unfold doniach, Rdiv. ring. Qed.

Lemma doublet_data_lin (x : list R) (f g : R -> R) (hr : R) :
  zip_with Rplus (map f x) (map (fun xi => hr * g xi) x) =
  zip_with (fun a b => a + hr * b) (map f x) (map g x).
Proof. induction x as [|a x IH]; cbn; [reflexivity|rewrite IH; reflexivity]. Qed.

Lemma zip_with_zero_coef (t1 t2 : list R) :
  length t1 = length t2 -> zip_with (fun a b => a + 0 * b) t1 t2 = t1.
Proof.
  revert t2; induction t1 as [|a t1 IH]; intros [|b t2] Hl; cbn in *; try lia;
    [reflexivity|]. rewrite IH by lia. f_equal. ring.
Qed.

Lemma cont_const (c x0 : R) : continuity_pt (fun _ => c) x0.
Proof. apply continuity_pt_const. intros a b. reflexivity. Qed.

Lemma cont_id (x0 : R) : continuity_pt (fun h => h) x0.
Proof. exact (derivable_continuous_pt _ _ (derivable_pt_id x0)). Qed.

Lemma cont_affine (u w x0 : R) : continuity_pt (fun h => u + h * w) x0.
Proof.
  apply (continuity_pt_plus (fun _ => u) (fun h => h * w)); [apply cont_const|].
  apply (continuity_pt_mult (fun h => h) (fun _ => w)); [apply cont_id|apply cont_const].
Qed.

Lemma cont_Rmax (f g : R -> R) (x0 : R) :
  continuity_pt f x0 -> continuity_pt g x0 ->
  continuity_pt (fun h => Rmax (f h) (g h)) x0.
Proof.
  intros Hf Hg.
  apply (continuity_pt_locally_ext (fun h => (f h + g h + Rabs (f h - g h)) * / 2) _ 1);
    [lra| |].
  - intros y _. unfold Rmax. destruct (Rle_dec (f y) (g y)).
    + rewrite Rabs_left1 by lra. field.
    + rewrite Rabs_right by lra. field.
  - apply (continuity_pt_mult (fun h => f h + g h + Rabs (f h - g h)) (fun _ => / 2));
      [|apply cont_const].
    apply (continuity_pt_plus (fun h => f h + g h) (fun h => Rabs (f h - g h))).
    + apply (continuity_pt_plus f g); assumption.
    + apply (continuity_pt_comp (fun h => f h - g h) Rabs).
      * apply (continuity_pt_minus f g); assumption.
      * apply Rcontinuity_abs.
Qed.

Lemma cont_fold_max (t1 t2 : list R) (g : R -> R) (x0 : R) :
  continuity_pt g x0 ->
  continuity_pt (fun h => fold_left Rmax (zip_with (fun a b => a + h * b) t1 t2) (g h)) x0.
Proof.
  revert t2 g; induction t1 as [|a t1 IH]; intros [|b t2] g Hg; cbn; try exact Hg.
  apply (IH t2 (fun h => Rmax (g h) (a + h * b))).
  apply cont_Rmax; [exact Hg|apply cont_affine].
Qed.

Lemma nth_map_zero (F : R -> R) (l : list R) (i : nat) :
  F 0 = 0 -> nth i (map F l) 0 = F (nth i l 0).
Proof.
  intros H0. revert i; induction l as [|a l IH]; intros [|i]; cbn; auto.
Qed.

(** The values of [amp_normalize] along a straight line of curves
    [r1 + hr * r2] depend continuously on [hr] at [0], when the maximum of
    [r1] is not zero. *)
Lemma amp_normalize_line_continuous (a : R) (r1 r2 : list R) (m : R) (i : nat) :
  length r1 = length r2 -> py_max r1 = Some m -> m <> 0 ->
  continuity_pt
    (fun hr => match amp_normalize a (zip_with (fun u w => u + hr * w) r1 r2) with
               | Some l => nth i l 0 | None => 0 end) 0.
Proof.
  intros Hl Hm Hm0.
  destruct r1 as [|u0 t1]; [discriminate|]. destruct r2 as [|w0 t2]; [cbn in Hl; lia|].
  cbn in Hm. injection Hm as Hm. cbn in Hl.
  set (Mx := fun hr => fold_left Rmax (zip_with (fun u w => u + hr * w) t1 t2) (u0 + hr * w0)).
  apply (continuity_pt_locally_ext
           (fun hr => a * (nth i (u0 :: t1) 0 + hr * nth i (w0 :: t2) 0) / Mx hr) _ 1);
    [lra| |].
  - intros y _. symmetry.
    set (z := zip_with (fun u w => u + y * w) (u0 :: t1) (w0 :: t2)).
    unfold amp_normalize. replace (py_max z) with (Some (Mx y)) by reflexivity.
    cbn [obind].
    rewrite (nth_map_zero (fun v => a * v / Mx y)) by (unfold Rdiv; ring).
    unfold z. rewrite (nth_zip_with_total _ _ _ _ 0 0 0) by first [cbn; lia | ring].
    reflexivity.
  - apply (continuity_pt_div (fun hr => a * (nth i (u0 :: t1) 0 + hr * nth i (w0 :: t2) 0)) Mx).
    + apply (continuity_pt_mult (fun _ => a) (fun hr => nth i (u0 :: t1) 0 + hr * nth i (w0 :: t2) 0));
        [apply cont_const|apply cont_affine].
    + apply (cont_fold_max t1 t2 (fun hr => u0 + hr * w0)). apply cont_affine.
    + unfold Mx. rewrite zip_with_zero_coef by lia.
      replace (u0 + 0 * w0) with u0 by ring. rewrite Hm. exact Hm0.
Qed.

Lemma doniach_zero_amp (x : list R) (center sigma gamma : R) :
  map (fun xi => doniach xi 0 center sigma gamma) x = map (fun _ => 0) x.
Proof. apply map_ext. intros xi. unfold doniach, Rdiv. ring. Qed.

Lemma zip_with_Rplus_zero (f : R -> R) (x : list R) :
  zip_with Rplus (map f x) (map (fun _ => 0) x) = map f x.
Proof. induction x as [|a x IH]; cbn; [reflexivity|rewrite IH, Rplus_0_r; reflexivity]. Qed.

Lemma gaussian_kernel_length (x : list R) (s : R) : length (gaussian_kernel x s) = length x.
Proof. unfold gaussian_kernel. rewrite !length_map. reflexivity. Qed.

(** C6.  For every grid [x] and all parameters, [dublett] with
    [height_ratio = 0] equals [singlett] with the shared parameters; and
    when the maximum of the singlet's convolved curve is not zero, every
    value of [dublett] is continuous in [height_ratio] at [0], so the doublet
    converges to the singlet as [height_ratio -> 0]. *)
Theorem dublett_height_ratio_zero
  (x : list R) (amplitude sigma gamma gaussian_sigma center soc fct_coster_kronig : R) :
  dublett x amplitude sigma gamma gaussian_sigma center soc 0 fct_coster_kronig =
    singlett x amplitude sigma gamma gaussian_sigma center /\
  (forall raw m,
     fft_convolve (map (fun xi => doniach xi 1 center sigma gamma) x)
                  (gaussian_kernel x gaussian_sigma) = Some raw ->
     py_max raw = Some m -> m <> 0 ->
     forall i,
       continuity_pt
         (fun height_ratio =>
            match dublett x amplitude sigma gamma gaussian_sigma center soc height_ratio
                          fct_coster_kronig with
            | Some l => nth i l 0 | None => 0 end) 0).
Proof.
  split.
  - unfold dublett, singlett. rewrite doniach_zero_amp, zip_with_Rplus_zero. reflexivity.
  - intros raw m Hraw Hm Hm0 i.
    set (D1 := map (fun xi => doniach xi 1 center sigma gamma) x) in *.
    set (D2 := map (fun xi => doniach xi 1 (center - soc) (fct_coster_kronig * sigma) gamma) x).
    set (K := gaussian_kernel x gaussian_sigma) in *.
    assert (Hx : x <> []) by (intros ->; discriminate Hraw).
    assert (HD1 : D1 <> []) by (unfold D1; destruct x; [congruence|discriminate]).
    assert (HK : K <> [])
      by (intros HK; apply Hx, length_zero_iff_nil;
          rewrite <- (gaussian_kernel_length x gaussian_sigma); fold K; rewrite HK; reflexivity).
    assert (HL : length D1 = length D2) by (unfold D1, D2; rewrite !length_map; reflexivity).
    assert (Edub : forall hr,
               dublett x amplitude sigma gamma gaussian_sigma center soc hr fct_coster_kronig =
               let* conv_temp := fft_convolve (zip_with (fun a b => a + hr * b) D1 D2) K in
               amp_normalize amplitude conv_temp).
    { intros hr. unfold dublett.
      rewrite (map_ext (fun xi => doniach xi hr (center - soc) (fct_coster_kronig * sigma) gamma)
                       (fun xi => hr * doniach xi 1 (center - soc) (fct_coster_kronig * sigma) gamma))
        by (intros; apply doniach_amp).
      rewrite doublet_data_lin. reflexivity. }
    destruct (convolve_lin D1 D2 K 1 HD1 HK HL) as (r1 & r2 & E1 & E2 & Hr & _).
    rewrite fft_convolve_convolve in Hraw by assumption.
    rewrite E1 in Hraw. injection Hraw as <-.
    apply (continuity_pt_locally_ext
             (fun hr => match amp_normalize amplitude (zip_with (fun u w => u + hr * w) r1 r2) with
                        | Some l => nth i l 0 | None => 0 end) _ 1); [lra| |].
    + intros hr _. rewrite Edub.
      destruct (convolve_lin D1 D2 K hr HD1 HK HL) as (r1' & r2' & E1' & E2' & _ & E3).
      assert (r1' = r1) by congruence. assert (r2' = r2) by congruence. subst r1' r2'.
      assert (Hz : zip_with (fun a b => a + hr * b) D1 D2 <> [])
        by (intros Hz; apply HD1, length_zero_iff_nil;
            rewrite <- (length_zip_with_eq (fun a b => a + hr * b) D1 D2 HL), Hz; reflexivity).
      rewrite fft_convolve_convolve, E3 by assumption.
      reflexivity.
    + apply (amp_normalize_line_continuous amplitude r1 r2 m i Hr Hm Hm0).
Qed.

(* ------------------------------------------------------------------------- *)
(** ** C3: the maximum of the composite lineshapes *)

Lemma tiny_bounds : 0 < tiny < 1.
Proof.
  unfold tiny. assert (H : 1 < 10 ^ 15) by (apply Rlt_pow_R1; [lra|lia]).
  split; [apply Rinv_0_lt_compat; lra|].
  rewrite <- Rinv_1. apply Rinv_lt_contravar; lra.
Qed.

(** With [sigma = 1], [center = 0] and [gamma = 3], the Doniach-Sunjic
    profile of amplitude 1 is the straight line [-2 x]. *)
Lemma doniach_gamma3 (t : R) : doniach t 1 0 1 3 = -2 * t.
Proof.
  unfold doniach. destruct tiny_bounds as [T0 T1].
  rewrite Rmax_right by lra.
  replace ((t - 0) / 1) with t by field.
  replace (1 - 3) with (-2) by ring.
  replace (-2 / 2) with (Ropp 1) by field.
  unfold Rpower at 1. rewrite ln_1, Rmult_0_r, exp_0.
  assert (Hp : 0 < 1 + t ^ 2) by nra.
  rewrite Rpower_Ropp, Rpower_1 by exact Hp.
  replace (PI * 3 / 2 + -2 * atan t) with (3 * (PI / 2) + - (2 * atan t)) by field.
  rewrite cos_plus, cos_3PI2, sin_3PI2, sin_neg, sin_2a, sin_atan, cos_atan.
  assert (Hs : sqrt (1 + t²) * sqrt (1 + t²) = 1 + t ^ 2)
    by (rewrite sqrt_sqrt; unfold Rsqr; [ring|nra]).
  assert (Hs0 : 0 < sqrt (1 + t²)) by (apply sqrt_lt_R0; unfold Rsqr; nra).
  field_simplify; [|split; lra].
  replace (sqrt (1 + t²) ^ 2) with (1 + t ^ 2) by (rewrite <- Hs; ring).
  field. lra.
Qed.

Lemma convolve_2_2 (a b k1 k2 : R) :
  convolve [a; b] [k1; k2] = Some [a * k2 + a * k1; a * k2 + b * k1].
Proof.
  unfold convolve, np_convolve_valid, np_correlate_valid, py_take, py_drop,
    py_int_half, py_len.
  cbn -[Rmult Rplus IZR].
  change (PosDef.Pos.to_nat 1) with 1%nat. cbn -[Rmult Rplus IZR].
  f_equal. f_equal; [ring|]. f_equal. ring.
Qed.

Lemma sqrt_2PI_pos : 0 < sqrt (2 * PI).
Proof. apply sqrt_lt_R0. pose proof PI_RGT_0. lra. Qed.

Lemma gaussian_pos (xi center sigma : R) : 0 < gaussian xi 1 center sigma.
Proof.
  unfold gaussian. destruct tiny_bounds as [T0 _].
  apply Rmult_lt_0_compat; [|apply exp_pos].
  unfold Rdiv. rewrite Rmult_1_l. apply Rinv_0_lt_compat.
  eapply Rlt_le_trans; [exact T0|apply Rmax_l].
Qed.

(** On a two-point grid of spacing 1 the kernel has two equal positive
    values. *)
Lemma gaussian_kernel_pair (p : R) :
  exists k, 0 < k /\ gaussian_kernel [p; p + 1] 1 = [k; k].
Proof.
  assert (Hmean : np_mean [p; p + 1] = p + / 2)
    by (unfold np_mean; cbn [np_sum length]; replace (INR 2) with 2 by (rewrite S_INR, INR_1; ring); field).
  unfold gaussian_kernel. cbn [map]. rewrite Hmean.
  exists (1 / (sqrt (2 * PI) * 1) * gaussian p 1 (p + / 2) 1). split.
  - apply Rmult_lt_0_compat; [|apply gaussian_pos].
    pose proof sqrt_2PI_pos. unfold Rdiv. rewrite Rmult_1_l, Rmult_1_r.
    apply Rinv_0_lt_compat. lra.
  - unfold gaussian. replace (p + 1 - (p + / 2)) with (/ 2) by field.
    replace (p - (p + / 2)) with (- / 2) by field.
    replace ((- / 2) ^ 2) with ((/ 2) ^ 2) by ring.
    reflexivity.
Qed.

(** C3, counterexample.  The parameters [amplitude = 1], [sigma = 1],
    [gamma = 3], [gaussian_sigma = 1], [center = 0] are within the declared
    bounds (all [>= 0]); on the grid [[1; 2]] the Doniach profile is
    [[-2; -4]], the convolved curve [[-4k; -6k]] ([k > 0]) has the nonzero
    maximum [-4k], and [singlett] returns [[1; 3/2]], whose maximum is
    [3/2], not [amplitude = 1]. *)
Lemma composite_max_counterexample :
  exists raw m,
    fft_convolve (map (fun xi => doniach xi 1 0 1 3) [1; 2]) (gaussian_kernel [1; 2] 1)
      = Some raw /\
    py_max raw = Some m /\ m <> 0 /\
    singlett [1; 2] 1 1 3 1 0 = Some [1; 3 / 2] /\
    py_max [1; 3 / 2] = Some (3 / 2) /\ 3 / 2 <> 1.
Proof.
  destruct (gaussian_kernel_pair 1) as (k & Hk & EK).
  replace (1 + 1) with 2 in EK by ring.
  set (D := map (fun xi => doniach xi 1 0 1 3) [1; 2]).
  assert (ED : D = [-2 * 1; -2 * 2])
    by (unfold D; cbn [map]; rewrite !doniach_gamma3; reflexivity).
  assert (Eraw : fft_convolve D (gaussian_kernel [1; 2] 1) =
                 Some [-2 * 1 * k + -2 * 1 * k; -2 * 1 * k + -2 * 2 * k]).
  { rewrite EK, ED, fft_convolve_convolve by discriminate. apply convolve_2_2. }
  exists [-2 * 1 * k + -2 * 1 * k; -2 * 1 * k + -2 * 2 * k], (-2 * 1 * k + -2 * 1 * k).
  split; [exact Eraw|].
  split; [cbn [py_max fold_left]; rewrite Rmax_left by lra; reflexivity|].
  split; [lra|].
  split.
  - unfold singlett. fold D. rewrite Eraw. cbn [obind].
    unfold amp_normalize. cbn [py_max fold_left obind map].
    rewrite Rmax_left by lra.
    f_equal. f_equal; [field; lra|]. f_equal. field. lra.
  - split; [|lra]. cbn [py_max fold_left]. rewrite Rmax_right by lra. reflexivity.
Qed.

Lemma Rmax_monotone (f : R -> R) (u v : R) :
  (forall a b, a <= b -> f a <= f b) -> Rmax (f u) (f v) = f (Rmax u v).
Proof.
  intros Hf. unfold Rmax at 2. destruct (Rle_dec u v) as [H|H].
  - apply Rmax_right. apply Hf. exact H.
  - assert (f v <= f u) by (apply Hf; lra). apply Rmax_left. exact H0.
Qed.

Lemma fold_max_monotone (f : R -> R) (t : list R) (a : R) :
  (forall u v, u <= v -> f u <= f v) ->
  fold_left Rmax (map f t) (f a) = f (fold_left Rmax t a).
Proof.
  intros Hf. revert a; induction t as [|b t IH]; intros a; cbn; [reflexivity|].
  rewrite Rmax_monotone by exact Hf. apply IH.
Qed.

Lemma amp_normalize_max (a : R) (raw : list R) (m : R) :
  0 <= a -> py_max raw = Some m -> 0 < m ->
  exists out, amp_normalize a raw = Some out /\ py_max out = Some a.
Proof.
  intros Ha Hm Hm0. unfold amp_normalize. rewrite Hm. cbn [obind].
  eexists. split; [reflexivity|].
  destruct raw as [|r0 t]; [discriminate|]. cbn in Hm. injection Hm as Hm.
  cbn [map py_max].
  rewrite (fold_max_monotone (fun v => a * v / m)).
  - rewrite Hm. f_equal. field. lra.
  - intros u v Huv. unfold Rdiv. apply Rmult_le_compat_r.
    + left. apply Rinv_0_lt_compat. exact Hm0.
    + apply Rmult_le_compat_l; assumption.
Qed.

(** C3.  For every grid and all parameters with [amplitude >= 0] (its
    declared bound): whenever the convolved curve of [singlett], of
    [dublett] or of [fermi_edge] has a positive maximum, the maximum of the
    returned curve is exactly [amplitude]. *)
Theorem composite_max_amplitude
  (x : list R) (amplitude sigma gamma gaussian_sigma center soc height_ratio
                fct_coster_kronig kt : R) :
  0 <= amplitude ->
  (forall raw m,
     fft_convolve (map (fun xi => doniach xi 1 center sigma gamma) x)
                  (gaussian_kernel x gaussian_sigma) = Some raw ->
     py_max raw = Some m -> 0 < m ->
     exists out, singlett x amplitude sigma gamma gaussian_sigma center = Some out /\
                 py_max out = Some amplitude) /\
  (forall raw m,
     fft_convolve
       (zip_with Rplus (map (fun xi => doniach xi 1 center sigma gamma) x)
                       (map (fun xi => doniach xi height_ratio (center - soc)
                                               (fct_coster_kronig * sigma) gamma) x))
       (gaussian_kernel x gaussian_sigma) = Some raw ->
     py_max raw = Some m -> 0 < m ->
     exists out, dublett x amplitude sigma gamma gaussian_sigma center soc height_ratio
                         fct_coster_kronig = Some out /\
                 py_max out = Some amplitude) /\
  (forall raw m,
     fft_convolve (map (fun xi => thermal_distribution xi 1 center kt Fermi) x)
                  (gaussian_kernel x sigma) = Some raw ->
     py_max raw = Some m -> 0 < m ->
     exists out, fermi_edge x amplitude center kt sigma = Some out /\
                 py_max out = Some amplitude).
Proof.
  intros Ha.
  split; [|split]; intros raw m Hraw Hm Hm0;
    [unfold singlett|unfold dublett|unfold fermi_edge];
    rewrite Hraw; cbn [obind]; exact (amp_normalize_max _ _ _ Ha Hm Hm0).
Qed.

(** On the grid [[-2; -1]] with [sigma = 1], [gamma = 3], [center = 0] and
    a kernel of width 1, the convolved Doniach curve is [[8k; 6k]] with
    [k > 0]: its maximum is positive. *)
Lemma singlet_raw_positive_example :
  exists raw m,
    fft_convolve (map (fun xi => doniach xi 1 0 1 3) [-2; -1]) (gaussian_kernel [-2; -1] 1)
      = Some raw /\ py_max raw = Some m /\ 0 < m.
Proof.
  destruct (gaussian_kernel_pair (-2)) as (k & Hk & EK).
  replace (-2 + 1) with (-1) in EK by ring.
  assert (ED : map (fun xi => doniach xi 1 0 1 3) [-2; -1] = [-2 * -2; -2 * -1])
    by (cbn [map]; rewrite !doniach_gamma3; reflexivity).
  rewrite EK, ED, fft_convolve_convolve by discriminate. rewrite convolve_2_2.
  do 2 eexists. split; [reflexivity|].
  split; [cbn [py_max fold_left]; rewrite Rmax_left by lra; reflexivity|]. lra.
Qed.

Lemma composite_max_amplitude_witness :
  exists out, singlett [-2; -1] 1 1 3 1 0 = Some out /\ py_max out = Some 1.
Proof.
  destruct singlet_raw_positive_example as (raw & m & E & Hm & Hm0).
  exact (proj1 (composite_max_amplitude [-2; -1] 1 1 3 1 0 0 0 0 0 ltac:(lra))
               raw m E Hm Hm0).
Defined.

Lemma dublett_height_ratio_zero_witness :
  dublett [-2; -1] 1 1 3 1 0 1 0 1 = singlett [-2; -1] 1 1 3 1 0 /\
  forall i,
    continuity_pt (fun hr => match dublett [-2; -1] 1 1 3 1 0 1 hr 1 with
                             | Some l => nth i l 0 | None => 0 end) 0.
Proof.
  destruct singlet_raw_positive_example as (raw & m & E & Hm & Hm0).
  destruct (dublett_height_ratio_zero [-2; -1] 1 1 3 1 0 1 1) as [H1 H2].
  split; [exact H1|]. apply (H2 raw m E Hm). lra.
Defined.

(* ------------------------------------------------------------------------- *)
(** ** C5: the area of the convolution kernel *)

Lemma exp_nonpos_le_1 (y : R) : y <= 0 -> exp y <= 1.
Proof.
  intros H. rewrite <- exp_0. destruct (Rle_lt_or_eq_dec y 0 H) as [Hlt|Heq].
  - left. apply exp_increasing. exact Hlt.
  - right. rewrite Heq. reflexivity.
Qed.

(** When [s2pi * s] is above lmfit's [tiny], every value of the kernel lies
    in [[0, 1/(2 pi s^2)]]: [gaussian(..., amplitude=1)] is already divided
    by [sqrt(2 pi) s], and the kernel divides it once more. *)
Lemma gaussian_kernel_bound (x : list R) (s : R) :
  0 < s -> tiny <= s2pi * s ->
  forall y, In y (gaussian_kernel x s) -> 0 <= y <= / (2 * PI * s ^ 2).
Proof.
  intros Hs Ht y Hy. unfold gaussian_kernel in Hy.
  apply in_map_iff in Hy as (g & <- & Hg).
  apply in_map_iff in Hg as (xi & <- & _).
  destruct tiny_bounds as [T0 _].
  assert (Hq0 := sqrt_2PI_pos).
  unfold gaussian. rewrite (Rmax_right tiny (s2pi * s)) by exact Ht. unfold s2pi.
  set (q := sqrt (2 * PI)) in *.
  assert (Hq : q * q = 2 * PI) by (unfold q; apply sqrt_sqrt; pose proof PI_RGT_0; lra).
  assert (HR : 0 < Rmax tiny (2 * s ^ 2)) by (eapply Rlt_le_trans; [exact T0|apply Rmax_l]).
  set (e := exp (- (xi - np_mean x) ^ 2 / Rmax tiny (2 * s ^ 2))).
  assert (He : 0 < e <= 1).
  { split; [apply exp_pos|]. apply exp_nonpos_le_1.
    assert (0 <= (xi - np_mean x) ^ 2) by apply pow2_ge_0.
    assert (0 < / Rmax tiny (2 * s ^ 2)) by (apply Rinv_0_lt_compat; exact HR).
    unfold Rdiv. nra. }
  assert (Hc : 0 < / (2 * PI * s ^ 2)).
  { apply Rinv_0_lt_compat. pose proof PI_RGT_0.
    apply Rmult_lt_0_compat; [lra|apply pow_lt; exact Hs]. }
  replace (1 / (q * s) * (1 / (q * s) * e)) with (e * / (2 * PI * s ^ 2))
    by (rewrite <- Hq; field; split; lra).
  split; [apply Rmult_le_pos; lra|].
  rewrite <- (Rmult_1_l (/ (2 * PI * s ^ 2))) at 2.
  apply Rmult_le_compat_r; lra.
Qed.

(** C5 (divergence).  On the grid [-100, -99, ..., 100] (spacing 1) with
    [gaussian_sigma = 10], the kernel that [singlett], [dublett] and
    [fermi_edge] pass to [fft_convolve] sums, against the grid spacing, to
    less than [1/2]; its area is about [1/(sqrt(2 pi) 10)], not 1. *)
Theorem gaussian_kernel_area_not_one :
  let x := map (fun k => IZR (Z.of_nat k - 100)) (seq 0 201) in
  np_sum (gaussian_kernel x 10) * 1 < 1 / 2.
Proof.
  intros x.
  assert (Hq : 1 <= sqrt (2 * PI)).
  { rewrite <- sqrt_1. apply sqrt_le_1_alt. pose proof PI_RGT_0.
    assert (3 / 2 < PI / 2) by exact PI2_3_2. lra. }
  assert (Ht : tiny <= s2pi * 10) by (unfold s2pi; destruct tiny_bounds; lra).
  destruct (np_sum_bounds (gaussian_kernel x 10) 0 (/ (2 * PI * 10 ^ 2)))
    as [_ H2].
  { apply gaussian_kernel_bound; [lra|exact Ht]. }
  rewrite gaussian_kernel_length in H2. unfold x in H2.
  rewrite length_map, length_seq in H2.
  replace (INR 201) with 201 in H2 by (rewrite INR_IZR_INZ; reflexivity).
  assert (Hpi : 3 < PI) by (pose proof PI2_3_2; lra).
  assert (Hb : 201 * / (2 * PI * 10 ^ 2) < 1 / 2).
  { apply (Rmult_lt_reg_r (2 * PI * 10 ^ 2)); [nra|].
    rewrite Rmult_assoc, Rinv_l by nra. nra. }
  unfold x. lra.
Qed.

(* ========================================================================= *)
(** * Further properties of the engines, the lineshapes and the models *)


(** Both engines are linear in [data]: for data of one length,
    [f(d1 + h*d2, kernel) = f(d1, kernel) + h*f(d2, kernel)] pointwise. *)
Theorem engines_linear (d1 d2 kernel : list R) (h : R) :
  d1 <> [] -> kernel <> [] -> length d1 = length d2 ->
  exists r1 r2,
    convolve d1 kernel = Some r1 /\ convolve d2 kernel = Some r2 /\
    fft_convolve d1 kernel = Some r1 /\ fft_convolve d2 kernel = Some r2 /\
    length r1 = length r2 /\
    convolve (zip_with (fun a b => a + h * b) d1 d2) kernel =
      Some (zip_with (fun a b => a + h * b) r1 r2) /\
    fft_convolve (zip_with (fun a b => a + h * b) d1 d2) kernel =
      Some (zip_with (fun a b => a + h * b) r1 r2).
Proof.
  intros Hd Hk Hl.
  destruct (convolve_lin d1 d2 kernel h Hd Hk Hl) as (r1 & r2 & E1 & E2 & Hr & E3).
  assert (Hd2 : d2 <> []) by (intros ->; destruct d1; cbn in Hl; [congruence|lia]).
  assert (Hz : zip_with (fun a b => a + h * b) d1 d2 <> []).
  { destruct d1 as [|a d1]; [congruence|]. destruct d2 as [|b d2]; [congruence|].
    discriminate. }
  exists r1, r2. rewrite !fft_convolve_convolve by assumption. auto 7.
Qed.

Lemma engines_length_short (data kernel : list R) :
  data <> [] -> kernel <> [] -> (length kernel <= 2 * length data + 1)%nat ->
  exists out, convolve data kernel = Some out /\ fft_convolve data kernel = Some out /\
              length out = Nat.min (length data) (length kernel).
Proof.
  intros Hd Hk HM.
  destruct (engine_shape data kernel Hd Hk) as (v1 & v2 & Hv1 & Hv2 & E1 & E2).
  exists (py_take (Nat.min (length data) (length kernel))
            (py_drop (py_int_half (py_len v1 - Z.of_nat (Nat.min (length data) (length kernel)))) v1)).
  split; [exact E1|]. split; [rewrite fft_convolve_convolve by assumption; exact E1|].
  apply (slice_length_iff (length data) (length kernel) v1);
    [destruct data; [congruence|cbn; lia]|destruct kernel; [congruence|cbn; lia]|exact Hv1|].
  left; exact HM.
Qed.

Lemma amp_normalize_length (a : R) (raw : list R) :
  raw <> [] -> exists out, amp_normalize a raw = Some out /\ length out = length raw.
Proof.
  intros H. destruct raw as [|r t]; [congruence|].
  eexists. split; [reflexivity|]. rewrite length_map. reflexivity.
Qed.

Lemma lineshape_length (data kernel : list R) (a : R) :
  data <> [] -> length kernel = length data ->
  exists out, (let* conv_temp := fft_convolve data kernel in amp_normalize a conv_temp) = Some out /\
              length out = length data.
Proof.
  intros Hd Hl.
  assert (Hk : kernel <> []) by (intros ->; destruct data; cbn in Hl; [congruence|lia]).
  destruct (engines_length_short data kernel Hd Hk) as (raw & _ & E & Hr); [lia|].
  rewrite E. cbn [obind].
  destruct (amp_normalize_length a raw) as (out & Eo & Ho).
  { intros ->. cbn in Hr. destruct data; [congruence|]. rewrite Hl in Hr. cbn in Hr. lia. }
  exists out. split; [exact Eo|]. rewrite Ho, Hr, Hl. apply Nat.min_id.
Qed.

(** On an empty grid [singlett], [dublett] and [fermi_edge] raise; on
    every non-empty grid they return one value per grid point. *)
Theorem lineshapes_length
  (x0 : R) (xs : list R) (amplitude sigma gamma gaussian_sigma center soc height_ratio
                fct_coster_kronig kt : R) :
  singlett [] amplitude sigma gamma gaussian_sigma center = None /\
  dublett [] amplitude sigma gamma gaussian_sigma center soc height_ratio fct_coster_kronig = None /\
  fermi_edge [] amplitude center kt sigma = None /\
  (exists out, singlett (x0 :: xs) amplitude sigma gamma gaussian_sigma center = Some out /\
               length out = length (x0 :: xs)) /\
  (exists out, dublett (x0 :: xs) amplitude sigma gamma gaussian_sigma center soc height_ratio
                       fct_coster_kronig = Some out /\ length out = length (x0 :: xs)) /\
  (exists out, fermi_edge (x0 :: xs) amplitude center kt sigma = Some out /\
               length out = length (x0 :: xs)).
Proof.
  set (x := x0 :: xs).
  split; [reflexivity|]. split; [reflexivity|]. split; [reflexivity|].
  split; [|split].
  - destruct (lineshape_length (map (fun xi => doniach xi 1 center sigma gamma) x)
                (gaussian_kernel x gaussian_sigma) amplitude) as (out & E & H);
      [discriminate|rewrite gaussian_kernel_length, length_map; reflexivity|].
    exists out. split; [exact E|]. rewrite H, length_map. reflexivity.
  - set (D := zip_with Rplus (map (fun xi => doniach xi 1 center sigma gamma) x)
                (map (fun xi => doniach xi height_ratio (center - soc)
                                        (fct_coster_kronig * sigma) gamma) x)).
    assert (LD : length D = length x)
      by (unfold D; rewrite length_zip_with_eq; rewrite !length_map; reflexivity).
    destruct (lineshape_length D (gaussian_kernel x gaussian_sigma) amplitude) as (out & E & H);
      [discriminate|rewrite gaussian_kernel_length, LD; reflexivity|].
    exists out. split; [exact E|]. rewrite H, LD. reflexivity.
  - destruct (lineshape_length (map (fun xi => thermal_distribution xi 1 center kt Fermi) x)
                (gaussian_kernel x sigma) amplitude) as (out & E & H);
      [discriminate|rewrite gaussian_kernel_length, length_map; reflexivity|].
    exists out. split; [exact E|]. rewrite H, length_map. reflexivity.
Qed.

Lemma zip_with_self_scale (d : list R) (h : R) :
  zip_with (fun a b => a + h * b) d d = map (Rmult (1 + h)) d.
Proof. induction d as [|a d IH]; cbn; [reflexivity|rewrite IH; f_equal; ring]. Qed.

(** A doublet with no spin-orbit splitting ([soc = 0]) and
    [fct_coster_kronig = 1] is the singlet, for every [height_ratio > -1]:
    the second peak only rescales the curve, which the normalisation
    removes. *)
Theorem dublett_without_splitting
  (x : list R) (amplitude sigma gamma gaussian_sigma center height_ratio : R) :
  -1 < height_ratio ->
  dublett x amplitude sigma gamma gaussian_sigma center 0 height_ratio 1 =
  singlett x amplitude sigma gamma gaussian_sigma center.
Proof.
  intros Hh. unfold dublett, singlett.
  set (f := fun xi => doniach xi 1 center sigma gamma).
  replace (map (fun xi => doniach xi height_ratio (center - 0) (1 * sigma) gamma) x)
    with (map (fun xi => height_ratio * f xi) x)
    by (apply map_ext; intros xi; unfold f; rewrite (doniach_amp xi height_ratio);
        replace (center - 0) with center by ring; replace (1 * sigma) with sigma by ring;
        reflexivity).
  rewrite doublet_data_lin, zip_with_self_scale.
  destruct x as [|x0 xs]; [reflexivity|].
  set (K := gaussian_kernel (x0 :: xs) gaussian_sigma).
  assert (HK : K <> []) by (unfold K, gaussian_kernel; discriminate).
  assert (Hd : map f (x0 :: xs) <> []) by discriminate.
  destruct (convolve_lin (map f (x0 :: xs)) (map f (x0 :: xs)) K height_ratio Hd HK eq_refl)
    as (r1 & r2 & E1 & E2 & _ & E3).
  rewrite E1 in E2. injection E2 as <-.
  rewrite zip_with_self_scale, zip_with_self_scale in E3.
  rewrite !fft_convolve_convolve by first [exact HK | discriminate].
  rewrite E3, E1. cbn [obind]. apply amp_normalize_scale_data. lra.
Qed.

Lemma in_firstn_l {A} (n : nat) (l : list A) (y : A) : In y (firstn n l) -> In y l.
Proof.
  revert n; induction l as [|a l IH]; intros [|n] H; cbn in *; try contradiction.
  destruct H as [H|H]; [left; exact H|right; eapply IH; exact H].
Qed.

Lemma in_skipn_l {A} (n : nat) (l : list A) (y : A) : In y (skipn n l) -> In y l.
Proof.
  revert n; induction l as [|a l IH]; intros [|n] H; cbn in *; try contradiction;
    [exact H|right; eapply IH; exact H].
Qed.

Lemma in_py_slice {A} (i j : Z) (l : list A) (y : A) : In y (py_slice i j l) -> In y l.
Proof. unfold py_slice. cbv zeta. intros H. apply in_firstn_l, in_skipn_l in H. exact H. Qed.

Lemma nth_repeat_in (c : R) (P i : nat) : (i < P)%nat -> nth i (repeat c P) 0 = c.
Proof.
  revert i; induction P as [|P IH]; intros [|i] H; cbn; try lia; [reflexivity|].
  apply IH. lia.
Qed.

Lemma big_sum_nth_np_sum (l : list R) : big_sum (length l) (fun j => nth j l 0) = np_sum l.
Proof.
  induction l as [|a l IH]; [reflexivity|].
  cbn [length]. rewrite big_sum_first. cbn [nth np_sum]. rewrite IH. reflexivity.
Qed.

Lemma last_repeat (c d : R) (n : nat) : (1 <= n)%nat -> last (repeat c n) d = c.
Proof.
  induction n as [|n IH]; intros H; [lia|].
  destruct n as [|n]; [reflexivity|].
  change (last (c :: repeat c (S n)) d) with (last (repeat c (S n)) d). apply IH. lia.
Qed.

Lemma all_eq_repeat (v : R) (l : list R) : (forall y, In y l -> y = v) -> l = repeat v (length l).
Proof.
  induction l as [|a l IH]; intros H; [reflexivity|].
  cbn. rewrite (H a (or_introl eq_refl)), <- IH; [reflexivity|].
  intros y Hy. apply H. right. exact Hy.
Qed.

(** Constant data stay constant: for [N >= 1] copies of [c] and a
    non-empty kernel of length [M <= 2N + 1], both engines return
    [min(N, M)] copies of [c * sum(kernel)]; the edge padding removes the
    border effects. *)
Theorem engines_preserve_constants (c : R) (N : nat) (kernel : list R) :
  (1 <= N)%nat -> kernel <> [] -> (length kernel <= 2 * N + 1)%nat ->
  convolve (repeat c N) kernel =
    Some (repeat (c * np_sum kernel) (Nat.min N (length kernel))) /\
  fft_convolve (repeat c N) kernel =
    Some (repeat (c * np_sum kernel) (Nat.min N (length kernel))).
Proof.
  intros HN Hk HM.
  assert (Hd : repeat c N <> []) by (destruct N; [lia|discriminate]).
  assert (HM' : (length kernel <= 2 * length (repeat c N) + 1)%nat) by (rewrite repeat_length; exact HM).
  destruct (engines_length_short (repeat c N) kernel Hd Hk HM') as (out & E1 & E2 & Hl).
  rewrite repeat_length in Hl.
  enough (Ho : out = repeat (c * np_sum kernel) (Nat.min N (length kernel)))
    by (rewrite E1, E2, Ho; split; reflexivity).
  rewrite <- Hl. apply all_eq_repeat. intros y Hy.
  rewrite convolve_eq_spec in E1 by assumption. injection E1 as E1. rewrite <- E1 in Hy.
  unfold convolve_spec in Hy. cbv zeta in Hy. apply in_py_slice in Hy.
  apply in_map_iff in Hy as (k & <- & Hk').
  apply in_seq in Hk'.
  rewrite repeat_length in Hk'.
  set (L := Nat.min N (length kernel)) in *.
  assert (Hhd : hd 0 (repeat c N) = c) by (destruct N; [lia|reflexivity]).
  rewrite Hhd, last_repeat in Hk' |- * by exact HN.
  rewrite <- !repeat_app in Hk' |- *.
  unfold py_len in Hk'. rewrite repeat_length in Hk'.
  rewrite <- big_sum_nth_np_sum, <- big_sum_scal_l. apply big_sum_ext. intros j Hj.
  rewrite nth_repeat_in; [reflexivity|]. rewrite repeat_length. unfold L in *. lia.
Qed.

Lemma nth_pad (a b : R) (d : list R) (L i : nat) :
  nth i (repeat a L ++ d ++ repeat b L) 0 =
  if (i <? L)%nat then a
  else if (i <? L + length d)%nat then nth (i - L) d 0
  else if (i <? L + length d + L)%nat then b else 0.
Proof.
  destruct (Nat.ltb_spec i L) as [H1|H1].
  { rewrite app_nth1 by (rewrite repeat_length; exact H1). apply nth_repeat_in. exact H1. }
  rewrite app_nth2 by (rewrite repeat_length; exact H1). rewrite repeat_length.
  destruct (Nat.ltb_spec i (L + length d)) as [H2|H2].
  { rewrite app_nth1 by lia. reflexivity. }
  rewrite app_nth2 by lia.
  destruct (Nat.ltb_spec i (L + length d + L)) as [H3|H3].
  - apply nth_repeat_in. lia.
  - apply nth_overflow. rewrite repeat_length. lia.
Qed.

Lemma last_nth_R (d : list R) : last d 0 = nth (length d - 1) d 0.
Proof.
  induction d as [|a d IH]; [reflexivity|].
  destruct d as [|b d]; [reflexivity|].
  change (last (a :: b :: d) 0) with (last (b :: d) 0). rewrite IH.
  cbn [length]. replace (S (S (length d)) - 1)%nat with (S (S (length d) - 1)) by lia.
  reflexivity.
Qed.

Lemma pad_le (d1 d2 : list R) (L : nat) :
  d1 <> [] -> length d1 = length d2 ->
  (forall i, (i < length d1)%nat -> nth i d1 0 <= nth i d2 0) ->
  forall i, nth i (repeat (hd 0 d1) L ++ d1 ++ repeat (last d1 0) L) 0
            <= nth i (repeat (hd 0 d2) L ++ d2 ++ repeat (last d2 0) L) 0.
Proof.
  intros Hne Hl H i.
  assert (Hn : (1 <= length d1)%nat) by (destruct d1; [congruence|cbn; lia]).
  rewrite !nth_pad, <- Hl, !last_nth_R, <- Hl.
  assert (Hhd : forall d : list R, hd 0 d = nth 0 d 0) by (intros [|a d]; reflexivity).
  rewrite !Hhd.
  destruct (i <? L)%nat; [apply H; lia|].
  destruct (Nat.ltb_spec i (L + length d1)); [apply H; lia|].
  destruct (i <? L + length d1 + L)%nat; [apply H; lia|lra].
Qed.

Lemma big_sum_le (n : nat) (f g : nat -> R) :
  (forall j, (j < n)%nat -> f j <= g j) -> big_sum n f <= big_sum n g.
Proof.
  induction n as [|n IH]; intros H; cbn [big_sum]; [lra|].
  apply Rplus_le_compat; [apply IH; intros; apply H; lia|apply H; lia].
Qed.

Lemma nth_kernel_nonneg (kernel : list R) (j : nat) :
  (forall y, In y kernel -> 0 <= y) -> 0 <= nth j kernel 0.
Proof.
  intros H. destruct (Nat.lt_ge_cases j (length kernel)) as [Hj|Hj].
  - apply H. apply nth_In. exact Hj.
  - rewrite nth_overflow by exact Hj. lra.
Qed.

(** Both engines are monotone in [data] for a non-negative kernel:
    pointwise smaller data (of one length) give a pointwise smaller
    result. *)
Theorem engines_monotone (d1 d2 kernel : list R) :
  d1 <> [] -> kernel <> [] -> length d1 = length d2 ->
  (forall i, (i < length d1)%nat -> nth i d1 0 <= nth i d2 0) ->
  (forall y, In y kernel -> 0 <= y) ->
  exists r1 r2,
    convolve d1 kernel = Some r1 /\ convolve d2 kernel = Some r2 /\
    fft_convolve d1 kernel = Some r1 /\ fft_convolve d2 kernel = Some r2 /\
    length r1 = length r2 /\
    (forall i, (i < length r1)%nat -> nth i r1 0 <= nth i r2 0).
Proof.
  intros Hd Hk Hl Hle Hker.
  assert (Hd2 : d2 <> []) by (intros ->; destruct d1; cbn in Hl; [congruence|lia]).
  assert (H1 : (1 <= length d1)%nat) by (destruct d1; [congruence|cbn; lia]).
  assert (H2 : (1 <= length kernel)%nat) by (destruct kernel; [congruence|cbn; lia]).
  destruct (convolve_form (length d1) (length kernel) H1 H2) as (n & len & al & be & Hf).
  set (r := fun d : list R =>
              map (fun i => big_sum n (fun j =>
                nth (al i j) (repeat (hd 0 d) (Nat.min (length d1) (length kernel)) ++ d
                              ++ repeat (last d 0) (Nat.min (length d1) (length kernel))) 0
                * nth (be i j) kernel 0)) (seq 0 len)).
  exists (r d1), (r d2).
  assert (E1 : convolve d1 kernel = Some (r d1)) by (apply Hf; reflexivity).
  assert (E2 : convolve d2 kernel = Some (r d2)) by (apply Hf; [symmetry; exact Hl|reflexivity]).
  rewrite !fft_convolve_convolve by assumption.
  split; [exact E1|]. split; [exact E2|]. split; [exact E1|]. split; [exact E2|].
  split; [unfold r; rewrite !length_map; reflexivity|].
  intros i Hi. unfold r in *. rewrite length_map, length_seq in Hi.
  rewrite !nth_map_seq by exact Hi.
  apply big_sum_le. intros j _.
  apply Rmult_le_compat_r; [apply nth_kernel_nonneg; exact Hker|].
  apply pad_le; assumption.
Qed.

Lemma antitone_trans (l : list R) :
  (forall i, (S i < length l)%nat -> nth (S i) l 0 <= nth i l 0) ->
  forall i j, (i <= j)%nat -> (j < length l)%nat -> nth j l 0 <= nth i l 0.
Proof.
  intros H i j Hij. induction Hij as [|j Hij IH]; intros Hj; [lra|].
  eapply Rle_trans; [apply H; exact Hj|apply IH; lia].
Qed.

Lemma pad_antitone (d : list R) (L : nat) :
  d <> [] ->
  (forall i, (S i < length d)%nat -> nth (S i) d 0 <= nth i d 0) ->
  forall i, (S i < L + length d + L)%nat ->
    nth (S i) (repeat (hd 0 d) L ++ d ++ repeat (last d 0) L) 0
    <= nth i (repeat (hd 0 d) L ++ d ++ repeat (last d 0) L) 0.
Proof.
  intros Hne H i Hi.
  assert (Hn : (1 <= length d)%nat) by (destruct d; [congruence|cbn; lia]).
  assert (Hhd : hd 0 d = nth 0 d 0) by (destruct d; reflexivity).
  rewrite !nth_pad, Hhd, last_nth_R.
  destruct (Nat.ltb_spec (S i) L); destruct (Nat.ltb_spec i L); try lia; [lra|..].
  - destruct (Nat.ltb_spec (S i) (L + length d)); [|lia].
    replace (S i - L)%nat with 0%nat by lia. lra.
  - destruct (Nat.ltb_spec (S i) (L + length d)); destruct (Nat.ltb_spec i (L + length d));
      try lia.
    + replace (S i - L)%nat with (S (i - L)) by lia. apply H. lia.
    + destruct (Nat.ltb_spec (S i) (L + length d + L)); [|lia].
      replace (i - L)%nat with (length d - 1)%nat by lia. lra.
    + destruct (Nat.ltb_spec (S i) (L + length d + L)); [|lia].
      destruct (Nat.ltb_spec i (L + length d + L)); [lra|lia].
Qed.

Lemma pad_positive (d : list R) (L : nat) :
  d <> [] -> (forall y, In y d -> 0 < y) ->
  forall i, (i < L + length d + L)%nat ->
    0 < nth i (repeat (hd 0 d) L ++ d ++ repeat (last d 0) L) 0.
Proof.
  intros Hne H i Hi.
  assert (Hn : (1 <= length d)%nat) by (destruct d; [congruence|cbn; lia]).
  assert (Hk : forall k, (k < length d)%nat -> 0 < nth k d 0)
    by (intros k Hk; apply H, nth_In; exact Hk).
  assert (Hhd : hd 0 d = nth 0 d 0) by (destruct d; reflexivity).
  rewrite nth_pad, Hhd, last_nth_R.
  destruct (i <? L)%nat; [apply Hk; lia|].
  destruct (Nat.ltb_spec i (L + length d)); [apply Hk; lia|].
  destruct (Nat.ltb_spec i (L + length d + L)); [apply Hk; lia|lia].
Qed.

Lemma big_sum_pos (n : nat) (f : nat -> R) :
  (1 <= n)%nat -> (forall j, (j < n)%nat -> 0 < f j) -> 0 < big_sum n f.
Proof.
  induction n as [|n IH]; intros Hn H; [lia|]. cbn [big_sum].
  destruct n as [|n]; [cbn; assert (H0 := H 0%nat ltac:(lia)); lra|].
  assert (0 < big_sum (S n) f) by (apply IH; [lia|intros; apply H; lia]).
  assert (H1 := H (S n) ltac:(lia)). lra.
Qed.

Lemma py_slice_antitone (i j : Z) (l : list R) :
  (forall k, (S k < length l)%nat -> nth (S k) l 0 <= nth k l 0) ->
  forall k, (S k < length (py_slice i j l))%nat ->
    nth (S k) (py_slice i j l) 0 <= nth k (py_slice i j l) 0.
Proof.
  intros H k Hk. unfold py_slice in *. cbv zeta in *.
  set (s := Z.to_nat (if (i <? 0)%Z then _ else _)) in *.
  set (t := Z.to_nat (_ - _)) in *.
  rewrite length_firstn, length_skipn in Hk.
  rewrite !nth_firstn.
  destruct (Nat.ltb_spec (S k) t); [|lia].
  destruct (Nat.ltb_spec k t); [|lia].
  rewrite !nth_skipn. replace (s + S k)%nat with (S (s + k)) by lia.
  apply H. lia.
Qed.

(** The valid correlation of an antitone positive array with a positive
    kernel, as [convolve_spec] writes it, is antitone and positive. *)

Lemma convolve_spec_antitone (data kernel : list R) :
  data <> [] -> kernel <> [] ->
  (forall i, (S i < length data)%nat -> nth (S i) data 0 <= nth i data 0) ->
  (forall y, In y data -> 0 < y) -> (forall y, In y kernel -> 0 < y) ->
  (forall i, (S i < length (convolve_spec data kernel))%nat ->
     nth (S i) (convolve_spec data kernel) 0 <= nth i (convolve_spec data kernel) 0) /\
  (forall y, In y (convolve_spec data kernel) -> 0 < y).
Proof.
  intros Hd Hk Hmon Hpd Hpk.
  assert (HM1 : (1 <= length kernel)%nat) by (destruct kernel; [congruence|cbn; lia]).
  assert (Hkn : forall j, (j < length kernel)%nat -> 0 < nth j kernel 0)
    by (intros j Hj; apply Hpk, nth_In; exact Hj).
  unfold convolve_spec. cbv zeta.
  set (L := Nat.min (length data) (length kernel)).
  set (P := repeat (hd 0 data) L ++ data ++ repeat (last data 0) L).
  assert (LP : length P = (L + length data + L)%nat)
    by (unfold P; rewrite !length_app, !repeat_length; lia).
  split.
  - apply py_slice_antitone. intros k Hkk.
    rewrite length_map, length_seq in Hkk. unfold py_len in Hkk.
    rewrite !nth_map_seq by (unfold py_len; lia).
    apply big_sum_le. intros j Hj.
    apply Rmult_le_compat_r; [left; apply Hkn; exact Hj|].
    replace (S k + length kernel - 1 - j)%nat with (S (k + length kernel - 1 - j)) by lia.
    apply (pad_antitone data L Hd Hmon). lia.
  - intros y Hy. apply in_py_slice in Hy.
    apply in_map_iff in Hy as (k & <- & Hk').
    apply in_seq in Hk'. unfold py_len in Hk'.
    apply big_sum_pos; [exact HM1|]. intros j Hj.
    apply Rmult_lt_0_compat; [|apply Hkn; exact Hj].
    apply (pad_positive data L Hd Hpd). lia.
Qed.

Lemma thermal_fermi_pos (xi center kt : R) : 0 < thermal_distribution xi 1 center kt Fermi.
Proof.
  unfold thermal_distribution. destruct tiny_bounds as [T0 T1].
  set (u := 1 * exp ((xi - center) / not_zero kt) + 1).
  assert (Hu : 1 < u) by (unfold u; pose proof (exp_pos ((xi - center) / not_zero kt)); lra).
  apply Rdiv_lt_0_compat; [lra|]. nra.
Qed.

Lemma thermal_fermi_antitone (a b center kt : R) :
  0 <= kt -> a <= b ->
  thermal_distribution b 1 center kt Fermi <= thermal_distribution a 1 center kt Fermi.
Proof.
  intros Hkt Hab. unfold thermal_distribution. destruct tiny_bounds as [T0 T1].
  assert (Hz : 0 < not_zero kt).
  { unfold not_zero. destruct (Rlt_dec kt 0); [lra|].
    eapply Rlt_le_trans; [exact T0|apply Rmax_l]. }
  assert (He : exp ((a - center) / not_zero kt) <= exp ((b - center) / not_zero kt)).
  { assert (Hpq : (a - center) / not_zero kt <= (b - center) / not_zero kt)
      by (unfold Rdiv; apply Rmult_le_compat_r; [left; apply Rinv_0_lt_compat; exact Hz|lra]).
    destruct (Rle_lt_or_eq_dec _ _ Hpq) as [Hlt|Heq];
      [left; apply exp_increasing; exact Hlt|rewrite Heq; lra]. }
  set (ua := 1 * exp ((a - center) / not_zero kt) + 1) in *.
  set (ub := 1 * exp ((b - center) / not_zero kt) + 1) in *.
  assert (Ha : 1 < ua) by (unfold ua; pose proof (exp_pos ((a - center) / not_zero kt)); lra).
  assert (Hab' : ua <= ub) by (unfold ua, ub; lra).
  assert (Da : 0 < ua ^ 2 + tiny ^ 2) by nra.
  assert (Db : 0 < ub ^ 2 + tiny ^ 2) by nra.
  apply (Rmult_le_reg_r ((ua ^ 2 + tiny ^ 2) * (ub ^ 2 + tiny ^ 2))); [nra|].
  replace (ub / (ub ^ 2 + tiny ^ 2) * ((ua ^ 2 + tiny ^ 2) * (ub ^ 2 + tiny ^ 2)))
    with (ub * (ua ^ 2 + tiny ^ 2)) by (field; lra).
  replace (ua / (ua ^ 2 + tiny ^ 2) * ((ua ^ 2 + tiny ^ 2) * (ub ^ 2 + tiny ^ 2)))
    with (ua * (ub ^ 2 + tiny ^ 2)) by (field; lra).
  assert (0 <= (ub - ua) * (ua * ub - tiny ^ 2)) by (apply Rmult_le_pos; nra).
  nra.
Qed.

Lemma gaussian_kernel_pos (x : list R) (s : R) :
  0 < s -> forall y, In y (gaussian_kernel x s) -> 0 < y.
Proof.
  intros Hs y Hy. unfold gaussian_kernel in Hy.
  apply in_map_iff in Hy as (g & <- & Hg).
  apply in_map_iff in Hg as (xi & <- & _).
  apply Rmult_lt_0_compat; [|apply gaussian_pos].
  pose proof sqrt_2PI_pos. unfold Rdiv. rewrite Rmult_1_l.
  apply Rinv_0_lt_compat. nra.
Qed.

Lemma fold_max_le_init (t : list R) (a : R) :
  (forall y, In y t -> y <= a) -> fold_left Rmax t a = a.
Proof.
  induction t as [|b t IH]; intros H; [reflexivity|]. cbn.
  rewrite Rmax_left by (apply H; left; reflexivity).
  apply IH. intros y Hy. apply H. right. exact Hy.
Qed.

(** On a non-empty increasing grid, with [amplitude >= 0], [kt >= 0]
    and [sigma > 0], [fermi_edge] returns one value per grid point, its
    first value is [amplitude], the values never increase along the grid
    and all lie in [[0, amplitude]]. *)
Theorem fermi_edge_descending (x : list R) (amplitude center kt sigma : R) :
  x <> [] ->
  (forall i, (S i < length x)%nat -> nth i x 0 <= nth (S i) x 0) ->
  0 <= amplitude -> 0 <= kt -> 0 < sigma ->
  exists out,
    fermi_edge x amplitude center kt sigma = Some out /\
    length out = length x /\
    nth 0 out 0 = amplitude /\
    (forall i, (S i < length out)%nat -> nth (S i) out 0 <= nth i out 0) /\
    (forall y, In y out -> 0 <= y <= amplitude).
Proof.
  intros Hx Hsort Ha Hkt Hs.
  set (th := fun xi => thermal_distribution xi 1 center kt Fermi).
  set (data := map th x). set (K := gaussian_kernel x sigma).
  assert (Ld : length data = length x) by (unfold data; apply length_map).
  assert (LK : length K = length x) by apply gaussian_kernel_length.
  assert (Hd : data <> []) by (unfold data; destruct x; [congruence|discriminate]).
  assert (HK : K <> []) by (unfold K, gaussian_kernel; destruct x; [congruence|discriminate]).
  assert (HM : (length K <= 2 * length data + 1)%nat) by lia.
  assert (Hmon : forall i, (S i < length data)%nat -> nth (S i) data 0 <= nth i data 0).
  { intros i Hi. rewrite Ld in Hi. unfold data.
    rewrite (nth_indep _ 0 (th 0)) by (rewrite length_map; lia).
    rewrite (nth_indep (map th x) 0 (th 0)) by (rewrite length_map; lia).
    rewrite !map_nth. apply thermal_fermi_antitone; [exact Hkt|]. apply Hsort. exact Hi. }
  assert (Hpd : forall y, In y data -> 0 < y)
    by (intros y Hy; unfold data in Hy; apply in_map_iff in Hy as (xi & <- & _);
        apply thermal_fermi_pos).
  destruct (convolve_spec_antitone data K Hd HK Hmon Hpd (gaussian_kernel_pos x sigma Hs))
    as [Hrm Hrp].
  set (raw := convolve_spec data K) in *.
  assert (Hraw : fft_convolve data K = Some raw)
    by (rewrite fft_convolve_convolve by assumption; apply convolve_eq_spec; assumption).
  destruct (engines_length_short data K Hd HK HM) as (raw' & E1 & _ & Lr).
  rewrite convolve_eq_spec in E1 by assumption. injection E1 as E1.
  fold raw in E1. subst raw'.
  rewrite Ld, LK, Nat.min_id in Lr.
  unfold fermi_edge. fold th data K. rewrite Hraw. cbn [obind].
  destruct raw as [|r0 t] eqn:Er; [cbn in Lr; destruct x; [congruence|discriminate]|].
  assert (Hr0 : 0 < r0) by (apply Hrp; left; reflexivity).
  assert (Hle0 : forall y, In y (r0 :: t) -> y <= r0).
  { intros y Hy. apply In_nth with (d := 0) in Hy as (k & Hk & <-).
    change r0 with (nth 0 (r0 :: t) 0).
    apply antitone_trans; [exact Hrm|lia|exact Hk]. }
  unfold amp_normalize. cbn [py_max obind].
  rewrite fold_max_le_init by (intros y Hy; apply Hle0; right; exact Hy).
  eexists. split; [reflexivity|].
  split; [rewrite length_map; exact Lr|].
  split; [cbn; field; lra|].
  split.
  - intros i Hi. rewrite length_map in Hi.
    rewrite !(nth_map_zero (fun v => amplitude * v / r0)) by (unfold Rdiv; ring).
    unfold Rdiv. apply Rmult_le_compat_r; [left; apply Rinv_0_lt_compat; exact Hr0|].
    apply Rmult_le_compat_l; [exact Ha|]. apply Hrm. exact Hi.
  - intros y Hy. apply in_map_iff in Hy as (v & <- & Hv).
    assert (0 < v) by (apply Hrp; exact Hv).
    assert (v <= r0) by (apply Hle0; exact Hv).
    split.
    + unfold Rdiv. apply Rmult_le_pos; [apply Rmult_le_pos; lra|left; apply Rinv_0_lt_compat; lra].
    + apply (Rmult_le_reg_r r0); [exact Hr0|].
      replace (amplitude * v / r0 * r0) with (amplitude * v) by (field; lra). nra.
Qed.

(** Strings: a prefix test that holds splits the string. *)
Lemma string_prefix_split (p n : string) :
  String.prefix p n = true -> exists r, n = (p ++ r)%string.
Proof.
  revert n; induction p as [|c p IH]; intros n H; [exists n; reflexivity|].
  destruct n as [|d n]; [discriminate|]. cbn in H.
  destruct (Ascii.ascii_dec c d) as [<-|_]; [|discriminate].
  destruct (IH n H) as [r ->]. exists r. reflexivity.
Qed.

Lemma strip_prefix_cases (pre n : string) :
  strip_prefix pre n = n \/
  (pre <> EmptyString /\ exists r, n = (pre ++ r)%string /\ strip_prefix pre n = r).
Proof.
  destruct (String.eqb_spec pre EmptyString) as [->|Hp]; [left; reflexivity|].
  destruct (String.prefix pre n) eqn:E.
  - right. split; [exact Hp|]. destruct (string_prefix_split pre n E) as [r ->].
    exists r. split; [reflexivity|apply strip_prefix_app].
  - left. apply strip_prefix_not. right. exact E.
Qed.


Lemma suffixes_app (p r : string) : In r (suffixes (p ++ r)).
Proof.
  induction p as [|c p IH]; [destruct r; left; reflexivity|]. right. exact IH.
Qed.

Lemma strip_prefix_suffix (pre n : string) : In (strip_prefix pre n) (suffixes n).
Proof.
  destruct (strip_prefix_cases pre n) as [->|(_ & r & -> & ->)];
    [destruct n; left; reflexivity|apply suffixes_app].
Qed.



Lemma merge_hint_nonneg (o h : hint) : nonneg_hint o -> nonneg_hint h -> nonneg_hint (merge_hint o h).
Proof.
  intros (Mo & Lo & Vo) (Mh & Lh & Vh). unfold nonneg_hint, merge_hint.
  cbn [hint_max hint_min hint_value]. rewrite Mo, Mh. split; [reflexivity|]. split.
  - destruct Lh as [->| ->]; [exact Lo|right; reflexivity].
  - destruct (hint_value h) as [a|]; cbn; [intros v [= <-]; apply Vh; reflexivity|exact Vo].
Qed.

Lemma set_value_nonneg (p : parameter) (a : R) : nonneg_par p -> 0 <= a -> nonneg_par (set_value p a).
Proof.
  intros (M & L & V) Ha. unfold nonneg_par, set_value, clip. cbn [par_max par_min par_value].
  rewrite M. unfold clip_min.
  split; [reflexivity|]. split; [exact L|]. intros v [= <-].
  destruct L as [->| ->]; [lra|]. destruct (Rlt_dec a 0); lra.
Qed.

Lemma opt_set_nonneg (p : parameter) (o : option R) :
  nonneg_par p -> (forall a, o = Some a -> 0 <= a) -> nonneg_par (opt_set p o).
Proof. intros Hp Ho. destruct o as [a|]; [apply set_value_nonneg; auto|exact Hp]. Qed.

Lemma apply_hint_nonneg (p : parameter) (h : hint) :
  nonneg_par p -> nonneg_hint h -> nonneg_par (apply_hint p h).
Proof.
  intros Hp (Mh & Lh & Vh). unfold apply_hint.
  assert (Hq := opt_set_nonneg p (hint_value h) Hp Vh).
  destruct Hq as (Mq & Lq & Vq). unfold nonneg_par. cbn [par_max par_min par_value].
  rewrite Mh, Mq. split; [reflexivity|]. split; [|exact Vq].
  destruct Lh as [->| ->]; [exact Lq|right; reflexivity].
Qed.

Lemma new_par_nonneg (name : string) : nonneg_par (new_par name).
Proof. split; [reflexivity|]. split; [left; reflexivity|discriminate]. Qed.

Lemma lookup_nil_kw (k : string) : lookup k (@nil (string * R)) = None.
Proof. reflexivity. Qed.

Lemma make_params_nonneg (m : model) :
  Forall (fun bh => nonneg_hint (snd bh)) (param_hints m) ->
  Forall (fun np => nonneg_par (snd np)) (make_params m []).
Proof.
  intros Hh. unfold make_params.
  assert (H0 : Forall (fun np => nonneg_par (snd np)) (map (make_params_par m []) (param_names m))).
  { apply Forall_map, Forall_forall. intros b _. unfold make_params_par. cbn [snd].
    rewrite !lookup_nil_kw. cbn [opt_set].
    destruct (lookup b (param_hints m)) as [h|] eqn:E; [|apply new_par_nonneg].
    apply apply_hint_nonneg; [apply new_par_nonneg|].
    exact (lookup_forall nonneg_hint _ _ _ Hh E). }
  revert H0. generalize (map (make_params_par m []) (param_names m)) as ps.
  induction Hh as [|[b h] t Hb Ht IH]; intros ps Hps; [exact Hps|].
  cbn [fold_left]. apply IH. unfold make_params_hint. cbn [fst snd]. rewrite lookup_nil_kw.
  cbn [opt_set].
  destruct (lookup (prefix m ++ b) ps) as [q|] eqn:E.
  - apply Forall_map. eapply Forall_impl; [|exact Hps]. intros [n p] Hp. cbn.
    destruct (String.eqb n (prefix m ++ b)); [|exact Hp]. cbn.
    apply apply_hint_nonneg; [exact (lookup_forall nonneg_par _ _ _ Hps E)|exact Hb].
  - apply Forall_app. split; [exact Hps|]. constructor; [|constructor].
    apply apply_hint_nonneg; [apply new_par_nonneg|exact Hb].
Qed.

Lemma set_hints_nonneg (m : model) (hs : list (string * hint)) :
  Forall (fun bh => nonneg_hint (snd bh)) (param_hints m) ->
  Forall (fun bh => nonneg_hint (snd bh)) hs ->
  Forall (fun bh => nonneg_hint (snd bh)) (param_hints (set_hints m hs)).
Proof. apply set_hints_forall. exact merge_hint_nonneg. Qed.

Ltac nonneg_hints :=
  repeat (apply Forall_cons;
          [unfold nonneg_hint; cbn [snd hint_max hint_min hint_value hv hvmin hexpr];
           split; [reflexivity|];
           split; [first [left; reflexivity | right; reflexivity]|];
           intros ? E; first [discriminate E | injection E as <-; lra]|]);
  apply Forall_nil.

(** The default values of the singlet, doublet and Fermi-edge models
    satisfy their own bounds, for every prefix: every parameter that
    [make_params] builds without keyword values and that holds a value has
    it within its [min] and [max]. *)
Theorem model_defaults_within_bounds (pre n : string) (p : parameter) (v : R) :
  In (n, p) (make_params (singlett_model pre) []) \/
  In (n, p) (make_params (dublett_model pre) []) \/
  In (n, p) (make_params (fermi_edge_model pre) []) ->
  par_value p = Some v ->
  (forall lo, par_min p = Some lo -> lo <= v) /\
  (forall hi, par_max p = Some hi -> v <= hi).
Proof.
  intros Hin Hv.
  assert (Hp : nonneg_par p).
  { destruct Hin as [H|[H|H]];
      (refine (proj1 (Forall_forall _ _) (make_params_nonneg _ _) _ H);
       apply set_hints_nonneg; [apply Forall_nil|nonneg_hints]). }
  destruct Hp as (M & L & V). specialize (V v Hv). rewrite M. split; [|discriminate].
  intros lo E. destruct L as [L|L]; rewrite L in E; [discriminate|injection E as <-; exact V].
Qed.

Lemma lookup_In_pair {A} (k : string) (l : list (string * A)) (a : A) :
  lookup k l = Some a -> In (k, a) l.
Proof.
  induction l as [|[n b] t IH]; cbn; [discriminate|].
  destruct (String.eqb_spec n k) as [->|_]; [intros [= ->]; left; reflexivity|].
  intros H. right. apply IH. exact H.
Qed.

Lemma singlett_model_amplitude :
  lookup "amplitude" (make_params (singlett_model "") []) =
  Some (mk_par "amplitude" (Some 100) (Some 0) None None).
Proof.
  destruct (set_hints_shape (mk_model "" ["amplitude"; "sigma"; "gamma"; "gaussian_sigma"; "center"]%string [])
              [("amplitude", hvmin 100 0); ("sigma", hvmin 0.2 0); ("gamma", hvmin 0.02 0);
               ("gaussian_sigma", hvmin 0.2 0); ("center", hvmin 100 0);
               ("gaussian_fwhm", hexpr ("2*" ++ "" ++ "gaussian_sigma*1.1774"));
               ("lorentzian_fwhm", hexpr ("" ++ "sigma*(2+" ++ "" ++ "gamma*2.5135+(" ++ ""
                                          ++ "gamma*3.6398)**4)"));
               ("fwhm", hexpr ("0.5346*" ++ "" ++ "lorentzian_fwhm+sqrt(0.2166*" ++ ""
                               ++ "lorentzian_fwhm**2+" ++ "" ++ "gaussian_fwhm**2)"));
               ("height", hexpr ("" ++ "amplitude"));
               ("area", hexpr ("" ++ "fwhm*" ++ "" ++ "height"))]%string) as (E1 & E2 & E3).
  exact (lookup_make_params_hinted (singlett_model "") "amplitude" (hvmin 100 0) 100
           ltac:(unfold singlett_model; rewrite E2; left; reflexivity)
           (E3 (NoDup_nil _)) ltac:(vm_compute; reflexivity) eq_refl
           ltac:(intros l [= <-]; lra) ltac:(discriminate)).
Qed.

Lemma model_defaults_within_bounds_witness :
  In ("amplitude"%string, mk_par "amplitude" (Some 100) (Some 0) None None)
     (make_params (singlett_model "") []) /\
  (forall lo, Some 0 = Some lo -> lo <= 100) /\ (forall hi, @None R = Some hi -> 100 <= hi).
Proof.
  assert (H := lookup_In_pair _ _ _ singlett_model_amplitude).
  split; [exact H|].
  exact (model_defaults_within_bounds "" "amplitude" (mk_par "amplitude" (Some 100) (Some 0) None None)
           100 (or_introl H) eq_refl).
Defined.

(** [update_param_vals] changes parameter values only: the names,
    their order, and every parameter's bounds and expression stay as they
    were, and keys that name no parameter add none. *)
Theorem update_param_vals_only_values
  (ps : list (string * parameter)) (pre : string) (kw : list (string * R)) :
  map (fun np => (fst np, par_name (snd np), par_min (snd np), par_max (snd np), par_expr (snd np)))
      (update_param_vals ps pre kw) =
  map (fun np => (fst np, par_name (snd np), par_min (snd np), par_max (snd np), par_expr (snd np)))
      ps.
Proof.
  unfold update_param_vals. revert ps.
  induction kw as [|[k v] kw IH]; intros ps; cbn [fold_left]; [reflexivity|].
  rewrite IH, map_map. apply map_ext. intros [n p]. cbn.
  destruct (String.eqb n (pre ++ k)); reflexivity.
Qed.












(** Both loops of [make_params] apply the hint of a function argument:
    the value is set before the bounds in the first loop and clipped to them
    in the second. *)
Lemma apply_hint_twice_clip (name : string) (h : hint) (v : R) :
  hint_value h = Some v ->
  apply_hint (apply_hint (new_par name) h) h =
  mk_par name (Some (clip (hint_min h) (hint_max h) v)) (hint_min h) (hint_max h) (hint_expr h).
Proof.
  intros Hv. destruct h as [hv hl hh he]; cbn in *; subst hv.
  unfold apply_hint, opt_set, set_value, new_par; cbn.
  destruct hl, hh, he; reflexivity.
Qed.

Lemma lookup_make_params_twice (m : model) (b : string) (h : hint) :
  In b (param_names m) -> NoDup (map fst (param_hints m)) ->
  lookup b (param_hints m) = Some h ->
  lookup (prefix m ++ b) (make_params m []) =
  Some (apply_hint (apply_hint (new_par (prefix m ++ b)) h) h).
Proof.
  intros Hb Hnd Lh. rewrite lookup_make_params by assumption.
  rewrite Lh. unfold make_params_par. rewrite Lh. reflexivity.
Qed.

Lemma clip_0_2 (v : R) : 0 <= v -> clip (Some 0) (Some 2) v = Rmin v 2.
Proof.
  intros Hv. unfold clip, clip_min, Rmin.
  destruct (Rlt_dec 2 v), (Rle_dec v 2); try lra; destruct (Rlt_dec v 0); lra.
Qed.

(** A hint set with a value and both bounds: its key holds them. *)
Lemma lookup_set_param_hint_bounds (m : model) (n : string) (v lo hi : R) :
  exists h', lookup (strip_prefix (prefix m) n) (param_hints (set_param_hint m n (hvbounds v lo hi)))
             = Some h' /\
             hint_value h' = Some v /\ hint_min h' = Some lo /\ hint_max h' = Some hi.
Proof.
  cbn [set_param_hint param_hints]. rewrite lookup_hints_set, String.eqb_refl.
  destruct (lookup _ (param_hints m)); eexists; (split; [reflexivity|]); cbn; auto.
Qed.

Lemma lookup_set_param_hint_other (m : model) (n k : string) (h : hint) :
  String.eqb (strip_prefix (prefix m) n) k = false ->
  lookup k (param_hints (set_param_hint m n h)) = lookup k (param_hints m).
Proof. intros E. cbn [set_param_hint param_hints]. rewrite lookup_hints_set, E. reflexivity. Qed.

Lemma strip_not_kt (pre n : string) :
  ~ In "kt"%string (suffixes n) -> String.eqb (strip_prefix pre n) "kt" = false.
Proof.
  intros H. apply String.eqb_neq. intros E. apply H. rewrite <- E. apply strip_prefix_suffix.
Qed.

(** [FermiEdgeModel.guess] on a non-empty grid and non-empty data, for the
    empty prefix or a prefix with which neither ['kt'] nor ['sigma'] starts,
    without keyword values: the parameter [kt] has the bounds
    [[0, kb * 1500]] and reads [kb * 300]; the parameter [sigma] has the
    bounds [[0, 2]] and reads [(max(x) - min(x)) / len(x)] clipped to
    [2]. *)
Theorem fermi_edge_guess_kt_sigma (pre : string) (data x : list R) :
  (pre = EmptyString \/
   (String.prefix pre "kt" = false /\ String.prefix pre "sigma" = false)) ->
  x <> [] -> data <> [] ->
  exists self' pars xmin xmax k s,
    fermi_edge_guess (fermi_edge_model pre) data (Some x) [] = (self', Some (Some pars)) /\
    py_min x = Some xmin /\ py_max x = Some xmax /\
    lookup (pre ++ "kt")%string pars = Some k /\
    par_min k = Some 0 /\ par_max k = Some (kb * 1500) /\ par_read k = Some (kb * 300) /\
    lookup (pre ++ "sigma")%string pars = Some s /\
    par_min s = Some 0 /\ par_max s = Some 2 /\
    par_read s = Some (Rmin ((xmax - xmin) / INR (length x)) 2).
Proof.
  intros Hpre Hx Hd.
  destruct (py_min_some x Hx) as [xmin Hxmin].
  destruct (py_max_some x Hx) as [xmax Hxmax].
  destruct (py_min_some data Hd) as [dmin Hdmin].
  destruct (py_max_some data Hd) as [dmax Hdmax].
  assert (Hxx := py_min_le_max x xmin xmax Hx Hxmin Hxmax).
  destruct (fermi_edge_model_shape pre) as (Ep & En & Hnd).
  assert (Ne0 := fermi_edge_model_no_expr pre).
  set (m0 := fermi_edge_model pre) in *. clearbody m0.
  set (hc := hvbounds (np_mean x) xmin xmax).
  set (hk := hvbounds (kb * 300) 0 (kb * 1500)).
  set (ha := hvbounds ((dmax - dmin) / 10) 0 (dmax - dmin)).
  set (hs := hvbounds ((xmax - xmin) / INR (length x)) 0 2).
  set (s1 := set_param_hint m0 "center" hc).
  set (s2 := set_param_hint s1 "kt" hk).
  set (s3 := set_param_hint s2 "amplitude" ha).
  set (s := set_param_hint s3 "sigma" hs).
  assert (Rn := fermi_edge_guess_run m0 data x [] xmin xmax dmin dmax Hxmin Hxmax Hdmin Hdmax).
  cbv zeta in Rn. fold hc hk ha hs s1 s2 s3 s in Rn.
  assert (P1 : prefix s1 = pre) by exact Ep.
  assert (P2 : prefix s2 = pre) by exact Ep.
  assert (P3 : prefix s3 = pre) by exact Ep.
  assert (Sp : prefix s = pre) by exact Ep.
  assert (Sn : param_names s = ["amplitude"; "center"; "kt"; "sigma"]%string) by exact En.
  assert (Snd : NoDup (map fst (param_hints s)))
    by (unfold s, s3, s2, s1; cbn [param_hints set_param_hint]; repeat apply nodup_hints_set;
        exact Hnd).
  assert (Ne : Forall (fun bh => hint_expr (snd bh) = None) (param_hints s)).
  { unfold s, s3, s2, s1; cbn [param_hints set_param_hint].
    repeat apply hints_set_forall_no_expr; try reflexivity. exact Ne0. }
  assert (Sk : strip_prefix pre "kt" = "kt"%string)
    by (apply strip_prefix_not; destruct Hpre as [->|[H _]]; [left|right]; auto).
  assert (Ss : strip_prefix pre "sigma" = "sigma"%string)
    by (apply strip_prefix_not; destruct Hpre as [->|[_ H]]; [left|right]; auto).
  (* the hint of kt *)
  destruct (lookup_set_param_hint_bounds s1 "kt" (kb * 300) 0 (kb * 1500))
    as (ok & Lk2 & Vk & Mk & Xk).
  rewrite P1, Sk in Lk2. fold hk s2 in Lk2.
  assert (Lk : lookup "kt" (param_hints s) = Some ok).
  { unfold s. rewrite lookup_set_param_hint_other by (rewrite P3, Ss; reflexivity).
    unfold s3. rewrite lookup_set_param_hint_other
      by (rewrite P2; apply strip_not_kt; cbn; intuition discriminate).
    exact Lk2. }
  destruct (lookup_set_param_hint_bounds s3 "sigma" ((xmax - xmin) / INR (length x)) 0 2)
    as (os & Ls & Vs & Ms & Xs).
  rewrite P3, Ss in Ls. fold hs s in Ls.
  assert (Ek := lookup_forall (fun h => hint_expr h = None) _ _ _ Ne Lk).
  assert (Es := lookup_forall (fun h => hint_expr h = None) _ _ _ Ne Ls).
  cbn beta in Ek, Es.
  assert (Pk := lookup_make_params_twice s "kt" ok ltac:(rewrite Sn; cbn; tauto) Snd Lk).
  assert (Ps := lookup_make_params_twice s "sigma" os ltac:(rewrite Sn; cbn; tauto) Snd Ls).
  rewrite (apply_hint_twice_clip _ _ _ Vk), Mk, Xk, Ek, Sp in Pk.
  rewrite (apply_hint_twice_clip _ _ _ Vs), Ms, Xs, Es, Sp in Ps.
  assert (Hkb : 0 < kb) by (unfold kb; lra).
  assert (Hn : 0 < INR (length x)) by (apply lt_0_INR; destruct x; [congruence|cbn; lia]).
  assert (Hv : 0 <= (xmax - xmin) / INR (length x))
    by (unfold Rdiv; apply Rmult_le_pos; [lra|left; apply Rinv_0_lt_compat; exact Hn]).
  do 6 eexists. split; [exact Rn|]. split; [exact Hxmin|]. split; [exact Hxmax|].
  rewrite update_param_vals_nil.
  split; [exact Pk|]. split; [reflexivity|]. split; [reflexivity|]. split.
  { unfold par_read; cbn [par_expr par_value par_min par_max].
    rewrite !(clip_in (Some 0) (Some (kb * 1500)) (kb * 300)) by (intros ? [= <-]; lra).
    reflexivity. }
  split; [exact Ps|]. split; [reflexivity|]. split; [reflexivity|].
  unfold par_read; cbn [par_expr par_value par_min par_max].
  rewrite (clip_0_2 ((xmax - xmin) / INR (length x)) Hv).
  rewrite clip_in; [reflexivity| |]; intros ? [= <-];
    [apply Rmin_glb; lra|apply Rmin_r].
Qed.

Lemma fermi_edge_guess_kt_sigma_witness :
  (""%string = EmptyString \/
   (String.prefix "" "kt" = false /\ String.prefix "" "sigma" = false)) /\
  [0; 1] <> [] /\ [1; 2] <> [] /\
  exists self' pars xmin xmax k s,
    fermi_edge_guess (fermi_edge_model "") [1; 2] (Some [0; 1]) [] = (self', Some (Some pars)) /\
    py_min [0; 1] = Some xmin /\ py_max [0; 1] = Some xmax /\
    lookup ("" ++ "kt")%string pars = Some k /\
    par_min k = Some 0 /\ par_max k = Some (kb * 1500) /\ par_read k = Some (kb * 300) /\
    lookup ("" ++ "sigma")%string pars = Some s /\
    par_min s = Some 0 /\ par_max s = Some 2 /\
    par_read s = Some (Rmin ((xmax - xmin) / INR (length [0; 1])) 2).
Proof.
  split; [left; reflexivity|]. split; [discriminate|]. split; [discriminate|].
  apply (fermi_edge_guess_kt_sigma "" [1; 2] [0; 1]); [left; reflexivity|discriminate|discriminate].
Defined.


Lemma engines_linear_witness :
  exists r1 r2,
    convolve [1; 2] [1; 1] = Some r1 /\ convolve [3; 4] [1; 1] = Some r2 /\
    fft_convolve [1; 2] [1; 1] = Some r1 /\ fft_convolve [3; 4] [1; 1] = Some r2 /\
    length r1 = length r2 /\
    convolve (zip_with (fun a b => a + 2 * b) [1; 2] [3; 4]) [1; 1] =
      Some (zip_with (fun a b => a + 2 * b) r1 r2) /\
    fft_convolve (zip_with (fun a b => a + 2 * b) [1; 2] [3; 4]) [1; 1] =
      Some (zip_with (fun a b => a + 2 * b) r1 r2).
Proof. apply engines_linear; [discriminate|discriminate|reflexivity]. Defined.

Lemma engines_preserve_constants_witness :
  convolve (repeat 2 2) [1; 1] = Some (repeat (2 * np_sum [1; 1]) (Nat.min 2 (length [1; 1]))) /\
  fft_convolve (repeat 2 2) [1; 1] = Some (repeat (2 * np_sum [1; 1]) (Nat.min 2 (length [1; 1]))).
Proof. apply engines_preserve_constants; [lia|discriminate|cbn; lia]. Defined.

Lemma engines_monotone_witness :
  exists r1 r2,
    convolve [1; 2] [1; 1] = Some r1 /\ convolve [2; 3] [1; 1] = Some r2 /\
    fft_convolve [1; 2] [1; 1] = Some r1 /\ fft_convolve [2; 3] [1; 1] = Some r2 /\
    length r1 = length r2 /\
    (forall i, (i < length r1)%nat -> nth i r1 0 <= nth i r2 0).
Proof.
  apply engines_monotone; [discriminate|discriminate|reflexivity| |].
  - intros [|[|i]] Hi; cbn in *; [lra|lra|lia].
  - intros y [<-|[<-|[]]]; lra.
Defined.

Lemma dublett_without_splitting_witness :
  dublett [0; 1] 1 1 1 1 0 0 (1 / 2) 1 = singlett [0; 1] 1 1 1 1 0.
Proof. apply dublett_without_splitting. lra. Defined.

Lemma fermi_edge_descending_witness :
  exists out,
    fermi_edge [0; 1] 1 0 1 1 = Some out /\
    length out = length [0; 1] /\
    nth 0 out 0 = 1 /\
    (forall i, (S i < length out)%nat -> nth (S i) out 0 <= nth i out 0) /\
    (forall y, In y out -> 0 <= y <= 1).
Proof.
  apply fermi_edge_descending; [discriminate| |lra|lra|lra].
  intros [|i] Hi; cbn in *; [lra|lia].
Defined.
